(** * The cslib vector (src/CommonFiles/cslib/src/vector.c)

    A shallow embedding of the resizable vector of the cslib library and the
    properties its specification states about it.

    The C code works on three kinds of heap blocks: the container record
    [struct VectorCDT], arrays of [void *] slots and the list owned by an
    iterator.  Every exported function of vector.c is embedded as a function
    in a small monad that threads the heap and distinguishes the ways a call
    can end: it returns, it halts in the fatal error reporter, it halts in
    the allocator, or it does what C leaves undefined (an access outside an
    allocated block or to a slot that was never written). *)

From stdpp Require Import gmap strings list list_numbers fin_maps.
From Stdlib Require Import ZArith Lia.

Open Scope Z_scope.

(** ** Machine integers *)
Module Int.

(** [int] is the 32-bit two's complement integer of the platforms the
    library targets. *)
Definition INT_MAX : Z := 2147483647.
Definition INT_MIN : Z := -2147483648.
Definition modulus : Z := 4294967296.

(** Reduction of a mathematical result into the range of [int]. *)
Definition wrap (z : Z) : Z := (z - INT_MIN) mod modulus + INT_MIN.

Definition in_range (z : Z) : Prop := INT_MIN <= z <= INT_MAX.

Definition add (a b : Z) : Z := wrap (a + b).
Definition sub (a b : Z) : Z := wrap (a - b).
Definition mul (a b : Z) : Z := wrap (a * b).

End Int.

(** ** The heap *)

(** Every C pointer ([Vector], [void **], [Iterator], the opaque [void *]
    element references) is an address; [NULL] is address 0. *)
Abbreviation ptr := Z (only parsing).
Definition NULL : ptr := 0.

(** A slot of a [void *] array either was never written since the array was
    allocated ([None]) or holds a pointer. *)
Abbreviation slot := (option Z) (only parsing).

Inductive block : Type :=
| VectorCDT (elements : ptr) (count : Z) (capacity : Z)
| ArrayBlock (slots : list slot)
| IteratorCDT (items : list ptr).

Abbreviation heap := (gmap Z block).

(** The address handed out by the next allocation: above every address in
    use, and never [NULL]. *)
Definition fresh_addr (h : heap) : ptr :=
  1 + map_fold (fun (k : Z) (_ : block) (acc : Z) => Z.max k acc) 0 h.

(** ** Outcomes and the heap monad *)

Inductive cause : Type :=
| Error (msg : string)
| NoMemory.

Inductive outcome (A : Type) : Type :=
| Ret (a : A) (h : heap)
| Fatal (c : cause) (h : heap)
| Undefined.

Arguments Ret {A} a h.
Arguments Fatal {A} c h.
Arguments Undefined {A}.

Definition M (A : Type) : Type := heap -> outcome A.

Global Instance M_ret : MRet M := fun A (a : A) h => Ret a h.

Global Instance M_bind : MBind M := fun A B (k : A -> M B) (m : M A) h =>
  match m h with
  | Ret a h' => k a h'
  | Fatal c h' => Fatal c h'
  | Undefined => Undefined
  end.

Definition fatal {A} (c : cause) : M A := fun h => Fatal c h.

(** ** The collaborators of vector.c

    vector.c calls the block allocator and the error reporter of cslib.h and
    the list iterator of itertype.h.  They live in other files of cslib and
    are embedded from what the specification says about them. *)

Section Vector.

(** Modelled from the spec: the block allocator behind [newArray] belongs
    to cslib.c.  The specification gives it as [allocate(n, width)],
    returning a buffer of exactly the requested slot count, with contents
    that need not be initialised, a failure to allocate being fatal inside
    the allocator.  Which requests it grants is left open: [can_alloc n]
    tells whether a request for an array of [n] slots is granted.  The
    properties below assume of it only that a granted request has a slot
    count that is not negative and that an [int] can hold. *)
Variable can_alloc : Z -> bool.

(** Modelled from the spec: the allocator hands out a block that was not
    in use. *)
Definition alloc (b : block) : M ptr :=
  fun h => let a := fresh_addr h in Ret a (<[a := b]> h).

(** Modelled from the spec: [newBlock(Vector)], the allocation of one
    container record, a block of fixed size that is taken to be granted.
    Its three fields hold nothing meaningful until they are assigned; they
    are shown as zero. *)
Definition newBlock : M ptr := alloc (VectorCDT NULL 0 0).

(** Modelled from the spec: [newArray(n, void * )]. *)
Definition newArray (n : Z) : M ptr :=
  if can_alloc n then alloc (ArrayBlock (replicate (Z.to_nat n) None))
  else fatal NoMemory.

(** Modelled from the spec: [freeBlock], [release(buffer)]. *)
Definition freeBlock (p : ptr) : M unit :=
  fun h =>
    match h !! p with
    | Some _ => Ret tt (delete p h)
    | None => Undefined
    end.

(** Modelled from the spec: [error(msg)], the fatal error reporter; it
    never returns to its caller. *)
Definition error {A} (msg : string) : M A := fatal (Error msg).

(** *** Access to the fields of [struct VectorCDT] *)

Definition elements_of (vector : ptr) : M ptr :=
  fun h =>
    match h !! vector with
    | Some (VectorCDT e _ _) => Ret e h
    | _ => Undefined
    end.

Definition count_of (vector : ptr) : M Z :=
  fun h =>
    match h !! vector with
    | Some (VectorCDT _ c _) => Ret c h
    | _ => Undefined
    end.

Definition capacity_of (vector : ptr) : M Z :=
  fun h =>
    match h !! vector with
    | Some (VectorCDT _ _ k) => Ret k h
    | _ => Undefined
    end.

Definition set_elements (vector : ptr) (e : ptr) : M unit :=
  fun h =>
    match h !! vector with
    | Some (VectorCDT _ c k) => Ret tt (<[vector := VectorCDT e c k]> h)
    | _ => Undefined
    end.

Definition set_count (vector : ptr) (c : Z) : M unit :=
  fun h =>
    match h !! vector with
    | Some (VectorCDT e _ k) => Ret tt (<[vector := VectorCDT e c k]> h)
    | _ => Undefined
    end.

Definition set_capacity (vector : ptr) (k : Z) : M unit :=
  fun h =>
    match h !! vector with
    | Some (VectorCDT e c _) => Ret tt (<[vector := VectorCDT e c k]> h)
    | _ => Undefined
    end.

(** *** Access to the slots of a [void *] array

    [a[i]] as an rvalue and as the target of an assignment.  Outside the
    block, or reading a slot that was never written, C defines nothing. *)

Definition load (a : ptr) (i : Z) : M ptr :=
  fun h =>
    match h !! a with
    | Some (ArrayBlock s) =>
        if decide (0 <= i) then
          match s !! Z.to_nat i with
          | Some (Some p) => Ret p h
          | _ => Undefined
          end
        else Undefined
    | _ => Undefined
    end.

Definition store (a : ptr) (i : Z) (p : ptr) : M unit :=
  fun h =>
    match h !! a with
    | Some (ArrayBlock s) =>
        if decide (0 <= i < Z.of_nat (length s)) then
          Ret tt (<[a := ArrayBlock (<[Z.to_nat i := Some p]> s)]> h)
        else Undefined
    | _ => Undefined
    end.

(** *** Loops

    Every loop of vector.c is a [for] over an index whose bound and whose
    pointers are not assigned in the body, so the model reads them once in
    front of the loop and runs the body over the list of index values. *)

Fixpoint for_each (js : list Z) (body : Z -> M unit) : M unit :=
  match js with
  | [] => mret tt
  | j :: js' => body j;; for_each js' body
  end.

(** [for (i = 0; i < n; i++)] visits [upto n]. *)
Definition upto (n : Z) : list Z := seqZ 0 n.

(** [for (i = hi; i > lo; i--)] visits [downfrom hi lo]. *)
Definition downfrom (hi lo : Z) : list Z := reverse (seqZ (lo + 1) (hi - lo)).

(** [for (i = lo; i < hi; i++)] visits [range lo hi]. *)
Definition range (lo hi : Z) : list Z := seqZ lo (hi - lo).

(** *** Modelled from the spec: the list iterator of itertype.h *)

(** Modelled from the spec: [newListIterator(elementWidth, optionalFreeFn)]
    returns a new iterator with an empty list of its own. *)
Definition newListIterator : M ptr := alloc (IteratorCDT []).

(** Modelled from the spec: one more reference at the end of the list an
    iterator owns. *)
Definition append_item (iterator : ptr) (x : ptr) : M unit :=
  fun h =>
    match h !! iterator with
    | Some (IteratorCDT items) =>
        Ret tt (<[iterator := IteratorCDT (items ++ [x])]> h)
    | _ => Undefined
    end.

(** Modelled from the spec: [addToIteratorList(iterator, &a[i])] copies the
    element reference found at the given slot to the end of the list the
    iterator owns. *)
Definition addToIteratorList (iterator : ptr) (a : ptr) (i : Z) : M unit :=
  x ← load a i; append_item iterator x.

(** Modelled from the spec: driving an iterator one step yields the next
    reference of its list, each one once, and [None] when none is left. *)
Definition stepIterator (iterator : ptr) : M (option ptr) :=
  fun h =>
    match h !! iterator with
    | Some (IteratorCDT []) => Ret None h
    | Some (IteratorCDT (x :: items)) =>
        Ret (Some x) (<[iterator := IteratorCDT items]> h)
    | _ => Undefined
    end.

(** Driving an iterator until it is exhausted, at most [fuel] steps. *)
Fixpoint drive (fuel : nat) (iterator : ptr) : M (list ptr) :=
  match fuel with
  | O => mret []
  | S fuel' =>
      o ← stepIterator iterator;
      match o with
      | None => mret []
      | Some x => xs ← drive fuel' iterator; mret (x :: xs)
      end
  end.

(** ** vector.c *)

Definition INITIAL_CAPACITY : Z := 10.

(** [static void expandCapacity(Vector vector)] *)
Definition expandCapacity (vector : ptr) : M unit :=
  k ← capacity_of vector;
  let newCapacity := Int.mul k 2 in
  array ← newArray newCapacity;
  c ← count_of vector;
  e ← elements_of vector;
  for_each (upto c) (fun i => x ← load e i; store array i x);;
  freeBlock e;;
  set_elements vector array;;
  set_capacity vector newCapacity.

(** [Vector newVector(void)].  [enableIteration] records in the header of
    the container that its iterators come from [newVectorIterator]; the
    header holds nothing else and is not modelled. *)
Definition newVector : M ptr :=
  vector ← newBlock;
  a ← newArray INITIAL_CAPACITY;
  set_elements vector a;;
  set_count vector 0;;
  set_capacity vector INITIAL_CAPACITY;;
  mret vector.

(** [void freeVector(Vector vector)] *)
Definition freeVector (vector : ptr) : M unit :=
  e ← elements_of vector;
  freeBlock e;;
  freeBlock vector.

(** [Vector arrayToVector(void *array[], int n)] *)
Definition arrayToVector (array : ptr) (n : Z) : M ptr :=
  if decide (array = NULL) then mret NULL
  else
    vector ← newBlock;
    a ← newArray n;
    set_elements vector a;;
    set_count vector n;;
    set_capacity vector n;;
    for_each (upto n) (fun i => x ← load array i; store a i x);;
    mret vector.

(** [void **vectorToArray(Vector vector)] *)
Definition vectorToArray (vector : ptr) : M ptr :=
  if decide (vector = NULL) then mret NULL
  else
    n ← count_of vector;
    array ← newArray (Int.add n 1);
    e ← elements_of vector;
    for_each (upto n) (fun i => x ← load e i; store array i x);;
    store array n NULL;;
    mret array.

(** [bool isEmptyVector(Vector vector)] *)
Definition isEmptyVector (vector : ptr) : M bool :=
  c ← count_of vector; mret (bool_decide (c = 0)).

(** [int sizeVector(Vector vector)] *)
Definition sizeVector (vector : ptr) : M Z := count_of vector.

(** [void clearVector(Vector vector)] *)
Definition clearVector (vector : ptr) : M unit := set_count vector 0.

(** [Vector cloneVector(Vector vector)] *)
Definition cloneVector (vector : ptr) : M ptr :=
  newvec ← newBlock;
  c ← count_of vector;
  set_count newvec c;;
  k ← capacity_of vector;
  set_capacity newvec k;;
  a ← newArray k;
  set_elements newvec a;;
  e ← elements_of vector;
  for_each (upto c) (fun i => x ← load e i; store a i x);;
  mret newvec.

(** [void *getVector(Vector vector, int index)] *)
Definition getVector (vector : ptr) (index : Z) : M ptr :=
  c ← count_of vector;
  (if decide (index < 0 \/ index >= c)
   then error "get: Index value out of range" else mret tt);;
  e ← elements_of vector;
  load e index.

(** [void setVector(Vector vector, int index, void *value)] *)
Definition setVector (vector : ptr) (index : Z) (value : ptr) : M unit :=
  c ← count_of vector;
  (if decide (index < 0 \/ index >= c)
   then error "get: Index value out of range" else mret tt);;
  e ← elements_of vector;
  store e index value.

(** [void addVector(Vector vector, void *value)] *)
Definition addVector (vector : ptr) (value : ptr) : M unit :=
  c ← count_of vector;
  k ← capacity_of vector;
  (if decide (c = k) then expandCapacity vector else mret tt);;
  e ← elements_of vector;
  c' ← count_of vector;
  set_count vector (Int.add c' 1);;
  store e c' value.

(** [void insert(Vector vector, int index, void *value)] *)
Definition insert (vector : ptr) (index : Z) (value : ptr) : M unit :=
  c ← count_of vector;
  (if decide (index < 0 \/ index > c)
   then error "insert: Index value out of range" else mret tt);;
  k ← capacity_of vector;
  (if decide (c = k) then expandCapacity vector else mret tt);;
  e ← elements_of vector;
  for_each (downfrom c index)
    (fun i => x ← load e (i - 1); store e i x);;
  store e index value;;
  c' ← count_of vector;
  set_count vector (Int.add c' 1).

(** [void removeVector(Vector vector, int index)] *)
Definition removeVector (vector : ptr) (index : Z) : M unit :=
  c ← count_of vector;
  (if decide (index < 0 \/ index >= c)
   then error "remove: Index value out of range" else mret tt);;
  set_count vector (Int.sub c 1);;
  c' ← count_of vector;
  e ← elements_of vector;
  for_each (range index c')
    (fun i => x ← load e (i + 1); store e i x).

(** [static Iterator newVectorIterator(void *collection)] *)
Definition newVectorIterator (collection : ptr) : M ptr :=
  let vector := collection in
  iterator ← newListIterator;
  c ← count_of vector;
  e ← elements_of vector;
  for_each (upto c) (fun i => addToIteratorList iterator e i);;
  mret iterator.

End Vector.

(** An allocator that grants every request an [int] can express. *)
Definition plenty (n : Z) : bool := bool_decide (0 <= n <= Int.INT_MAX).

(** The heap an outcome halts in, when it has one. *)
Definition final_heap {A} (r : outcome A) : option heap :=
  match r with
  | Ret _ h => Some h
  | Fatal _ h => Some h
  | Undefined => None
  end.

(** The value an outcome returns, when it returns. *)
Definition returned {A} (r : outcome A) : option A :=
  match r with
  | Ret a _ => Some a
  | _ => None
  end.

(** ** Vectors in the heap *)

(** [vec_at h v e xs junk]: in heap [h] the record at [v] is a vector whose
    buffer is the array at [e]; the buffer holds the element references [xs]
    in its first [count] slots, followed by the unused slots [junk].  The
    capacity is the length of the buffer. *)
Record vec_at (h : heap) (v e : ptr) (xs : list ptr) (junk : list slot) : Prop :=
  { vec_nonnull : v <> NULL;
    vec_record :
      h !! v = Some (VectorCDT e (Z.of_nat (length xs))
                               (Z.of_nat (length xs + length junk)));
    vec_buffer : h !! e = Some (ArrayBlock ((Some <$> xs) ++ junk));
    vec_fits : Z.of_nat (length xs + length junk) <= Int.INT_MAX }.

(** Two vectors that share neither record nor buffer. *)
Definition independent (h : heap) (a b : ptr) : Prop :=
  exists ea xsa ja eb xsb jb,
    vec_at h a ea xsa ja /\ vec_at h b eb xsb jb /\
    a <> b /\ a <> eb /\ ea <> b /\ ea <> eb.

(** Blocks other than the record [v] and the buffer [e] are as they were. *)
Definition preserved (h h' : heap) (v e : ptr) : Prop :=
  forall l b, l <> v -> l <> e -> h !! l = Some b -> h' !! l = Some b.

(** ** Sequences of calls *)

(** The calls that change a vector. *)
Inductive mutation : Type :=
| MSet (index : Z) (value : ptr)
| MAppend (value : ptr)
| MInsert (index : Z) (value : ptr)
| MRemove (index : Z)
| MClear.

Definition mutate (can_alloc : Z -> bool) (vector : ptr) (m : mutation) : M unit :=
  match m with
  | MSet index value => setVector vector index value
  | MAppend value => addVector can_alloc vector value
  | MInsert index value => insert can_alloc vector index value
  | MRemove index => removeVector vector index
  | MClear => clearVector vector
  end.

Fixpoint mutate_all (can_alloc : Z -> bool) (vector : ptr) (ms : list mutation)
  : M unit :=
  match ms with
  | [] => mret tt
  | m :: ms' => mutate can_alloc vector m;; mutate_all can_alloc vector ms'
  end.

(** Mutating calls on two vectors, in any interleaving: a step marked [true]
    is a call on the second vector. *)
Fixpoint mutate_either (can_alloc : Z -> bool) (first second : ptr)
    (steps : list (bool * mutation)) : M unit :=
  match steps with
  | [] => mret tt
  | (on_second, m) :: steps' =>
      mutate can_alloc (if on_second : bool then second else first) m;;
      mutate_either can_alloc first second steps'
  end.

(** [addVector] called once for every value of a list, in order. *)
Fixpoint add_all (can_alloc : Z -> bool) (vector : ptr) (values : list ptr)
  : M unit :=
  match values with
  | [] => mret tt
  | x :: values' => addVector can_alloc vector x;; add_all can_alloc vector values'
  end.

(** What a client sees of a vector through [sizeVector] and [getVector]. *)
Definition observed (h : heap) (vector : ptr) (xs : list ptr) : Prop :=
  sizeVector vector h = Ret (Z.of_nat (length xs)) h /\
  forall (i : nat) x, xs !! i = Some x -> getVector vector (Z.of_nat i) h = Ret x h.

(** [c] is the smallest power-of-two multiple of the initial capacity that
    is at least [n]. *)
Definition least_pow2_multiple (c n : Z) : Prop :=
  (exists j, 0 <= j /\ c = INITIAL_CAPACITY * 2 ^ j) /\
  n <= c /\
  forall j, 0 <= j -> n <= INITIAL_CAPACITY * 2 ^ j -> c <= INITIAL_CAPACITY * 2 ^ j.

(** ** The calls as operations on lists *)

(** What a mutating call makes of the list of elements; [None] when its
    index is out of range. *)
Definition model_step (m : mutation) (xs : list Z) : option (list Z) :=
  match m with
  | MSet index value =>
      if decide (0 <= index < Z.of_nat (length xs))
      then Some (<[Z.to_nat index := value]> xs) else None
  | MAppend value => Some (xs ++ [value])
  | MInsert index value =>
      if decide (0 <= index <= Z.of_nat (length xs))
      then Some (take (Z.to_nat index) xs ++ value :: drop (Z.to_nat index) xs)
      else None
  | MRemove index =>
      if decide (0 <= index < Z.of_nat (length xs))
      then Some (delete (Z.to_nat index) xs) else None
  | MClear => Some []
  end.

Fixpoint model_all (ms : list mutation) (xs : list Z) : option (list Z) :=
  match ms with
  | [] => Some xs
  | m :: ms' =>
      match model_step m xs with
      | Some xs' => model_all ms' xs'
      | None => None
      end
  end.

(** An allocator that refuses every request. *)
Definition nothing (n : Z) : bool := false.

(** ** Example heaps *)

(** A full vector at address 1 with the buffer at address 2: two elements,
    no free slot. *)
Definition full_vector_heap : heap :=
  <[ 1 := VectorCDT 2 2 2 ]> {[ 2 := ArrayBlock [Some 7; Some 8] ]}.

(** An array without slots at address 1, as a caller holds it that passes
    [n = 0] to [arrayToVector]. *)
Definition empty_array_heap : heap := {[ 1 := ArrayBlock [] ]}.

(** An array of three element references at address 100. *)
Definition three_items_heap : heap :=
  {[ 100 := ArrayBlock [Some 7; Some 8; Some 9] ]}.

(** A vector at address 1 with the buffer at address 2: two elements and
    one free slot. *)
Definition small_vector_heap : heap :=
  <[ 1 := VectorCDT 2 2 3 ]> {[ 2 := ArrayBlock [Some 7; Some 8; None] ]}.

(** * Properties *)

(** ** Machine integers *)

Lemma wrap_in_range z : Int.in_range (Int.wrap z).
Proof.
  unfold Int.in_range, Int.wrap, Int.INT_MIN, Int.INT_MAX, Int.modulus.
  pose proof (Z.mod_pos_bound (z - -2147483648) 4294967296). lia.
Qed.

Lemma wrap_small z : Int.in_range z -> Int.wrap z = z.
Proof.
  unfold Int.in_range, Int.wrap, Int.INT_MIN, Int.INT_MAX, Int.modulus. intros Hz.
  rewrite Z.mod_small; lia.
Qed.

Lemma wrap_overflow z : Int.INT_MAX < z <= 2 * Int.INT_MAX + 1 -> Int.wrap z < 0.
Proof.
  unfold Int.wrap, Int.INT_MIN, Int.INT_MAX, Int.modulus. intros Hz.
  replace (z - -2147483648) with ((z - 2147483648) + 1 * 4294967296) by lia.
  rewrite Z.mod_add by lia. rewrite Z.mod_small; lia.
Qed.

(** ** Fresh addresses *)

Lemma fresh_addr_bound (h : heap) :
  0 < fresh_addr h /\ forall a b, h !! a = Some b -> a < fresh_addr h.
Proof.
  unfold fresh_addr.
  cut (0 <= map_fold (fun (k : Z) (_ : block) acc => Z.max k acc) 0 h /\
       forall a b, h !! a = Some b ->
         a <= map_fold (fun (k : Z) (_ : block) acc => Z.max k acc) 0 h).
  { intros [H0 Hle]. split; [lia|]. intros a b Hab. specialize (Hle a b Hab). lia. }
  apply (map_fold_weak_ind
           (fun r (m : heap) => 0 <= r /\ forall a b, m !! a = Some b -> a <= r)).
  - split; [lia|]. intros a b Hab. rewrite lookup_empty in Hab. discriminate.
  - intros i x m r Hi [Hr IH]. split; [lia|].
    intros a b Hab. destruct (decide (i = a)) as [->|Hne].
    + lia.
    + rewrite lookup_insert_ne in Hab by done. specialize (IH a b Hab). lia.
Qed.

Lemma fresh_addr_None (h : heap) : h !! fresh_addr h = None.
Proof.
  destruct (h !! fresh_addr h) as [b|] eqn:E; [|done].
  apply fresh_addr_bound in E. lia.
Qed.

Lemma fresh_addr_not_NULL (h : heap) : fresh_addr h <> NULL.
Proof. pose proof (fresh_addr_bound h) as [H _]. unfold NULL. lia. Qed.

Lemma fresh_addr_ne (h : heap) a b : h !! a = Some b -> fresh_addr h <> a.
Proof. intros Hab <-. rewrite fresh_addr_None in Hab. discriminate. Qed.

(** ** Running the primitives *)

Lemma bind_Ret {A B} (m : M A) (k : A -> M B) h a h' :
  m h = Ret a h' -> (m ≫= k) h = k a h'.
Proof. unfold mbind, M_bind. intros ->. reflexivity. Qed.

Lemma bind_Fatal {A B} (m : M A) (k : A -> M B) h c h' :
  m h = Fatal c h' -> (m ≫= k) h = Fatal c h'.
Proof. unfold mbind, M_bind. intros ->. reflexivity. Qed.

Lemma bind_Undefined {A B} (m : M A) (k : A -> M B) h :
  m h = Undefined -> (m ≫= k) h = Undefined.
Proof. unfold mbind, M_bind. intros ->. reflexivity. Qed.

Lemma elements_of_at h v e c k :
  h !! v = Some (VectorCDT e c k) -> elements_of v h = Ret e h.
Proof. unfold elements_of. intros ->. reflexivity. Qed.

Lemma count_of_at h v e c k :
  h !! v = Some (VectorCDT e c k) -> count_of v h = Ret c h.
Proof. unfold count_of. intros ->. reflexivity. Qed.

Lemma capacity_of_at h v e c k :
  h !! v = Some (VectorCDT e c k) -> capacity_of v h = Ret k h.
Proof. unfold capacity_of. intros ->. reflexivity. Qed.

Lemma set_elements_at h v e c k e' :
  h !! v = Some (VectorCDT e c k) ->
  set_elements v e' h = Ret tt (<[v := VectorCDT e' c k]> h).
Proof. unfold set_elements. intros ->. reflexivity. Qed.

Lemma set_count_at h v e c k c' :
  h !! v = Some (VectorCDT e c k) ->
  set_count v c' h = Ret tt (<[v := VectorCDT e c' k]> h).
Proof. unfold set_count. intros ->. reflexivity. Qed.

Lemma set_capacity_at h v e c k k' :
  h !! v = Some (VectorCDT e c k) ->
  set_capacity v k' h = Ret tt (<[v := VectorCDT e c k']> h).
Proof. unfold set_capacity. intros ->. reflexivity. Qed.

Lemma load_at h a s i p :
  h !! a = Some (ArrayBlock s) -> 0 <= i -> s !! Z.to_nat i = Some (Some p) ->
  load a i h = Ret p h.
Proof.
  unfold load. intros -> Hi Hs. rewrite decide_True by done. rewrite Hs. reflexivity.
Qed.

Lemma store_at h a s i p :
  h !! a = Some (ArrayBlock s) -> 0 <= i < Z.of_nat (length s) ->
  store a i p h = Ret tt (<[a := ArrayBlock (<[Z.to_nat i := Some p]> s)]> h).
Proof. unfold store. intros -> Hi. rewrite decide_True by done. reflexivity. Qed.

Lemma store_outside h a s i p :
  h !! a = Some (ArrayBlock s) -> ~ (0 <= i < Z.of_nat (length s)) ->
  store a i p h = Undefined.
Proof. unfold store. intros -> Hi. rewrite decide_False by done. reflexivity. Qed.

Lemma alloc_at b h : alloc b h = Ret (fresh_addr h) (<[fresh_addr h := b]> h).
Proof. reflexivity. Qed.

Lemma newArray_granted can_alloc n h :
  can_alloc n = true ->
  newArray can_alloc n h =
    Ret (fresh_addr h)
        (<[fresh_addr h := ArrayBlock (replicate (Z.to_nat n) None)]> h).
Proof. unfold newArray. intros ->. reflexivity. Qed.

Lemma newArray_refused can_alloc n h :
  can_alloc n = false -> newArray can_alloc n h = Fatal NoMemory h.
Proof. unfold newArray. intros ->. reflexivity. Qed.

Lemma freeBlock_at h p b : h !! p = Some b -> freeBlock p h = Ret tt (delete p h).
Proof. unfold freeBlock. intros ->. reflexivity. Qed.

Lemma for_each_app js1 js2 body h :
  for_each (js1 ++ js2) body h = (for_each js1 body;; for_each js2 body) h.
Proof.
  revert h. induction js1 as [|j js1 IH]; intros h; simpl.
  - reflexivity.
  - unfold mbind, M_bind in *. destruct (body j h); try reflexivity. apply IH.
Qed.

(** ** The loops *)

Lemma default_last_cons {A} (z x : A) (l : list A) :
  default z (last (x :: l)) = default x (last l).
Proof.
  destruct l as [|y l]; [reflexivity|].
  rewrite last_cons_cons.
  destruct (last_is_Some (y :: l)) as [_ [u Hu]]; [done|].
  rewrite Hu. reflexivity.
Qed.

(** The copying loop [for (i = 0; i < n; i++) dst[i] = src[i]]. *)
Lemma copy_loop h src dst (xs : list ptr) sb t (n : nat) :
  h !! src = Some (ArrayBlock ((Some <$> xs) ++ sb)) ->
  h !! dst = Some (ArrayBlock t) ->
  src <> dst -> (n <= length xs)%nat -> (n <= length t)%nat ->
  for_each (upto (Z.of_nat n)) (fun i => x ← load src i; store dst i x) h
  = Ret tt (<[dst := ArrayBlock ((Some <$> take n xs) ++ drop n t)]> h).
Proof.
  intros Hsrc Hdst Hne. induction n as [|n IH]; intros Hn Ht.
  - simpl. rewrite drop_0. rewrite insert_id by done. reflexivity.
  - unfold upto in *. rewrite seqZ_S, for_each_app.
    erewrite bind_Ret by (apply IH; lia).
    rewrite Z.add_0_l. simpl.
    destruct (lookup_lt_is_Some_2 xs n) as [x Hx]; [lia|].
    destruct (lookup_lt_is_Some_2 t n) as [y Hy]; [lia|].
    erewrite bind_Ret; cycle 1.
    { erewrite bind_Ret; cycle 1.
      - eapply load_at with (p := x).
        + rewrite lookup_insert_ne by done. exact Hsrc.
        + lia.
        + rewrite Nat2Z.id. apply lookup_app_l_Some.
          rewrite list_lookup_fmap, Hx. reflexivity.
      - eapply store_at.
        + apply lookup_insert_eq.
        + rewrite length_app, length_fmap, length_take, length_drop. lia. }
    unfold mret, M_ret. rewrite insert_insert_eq. do 3 f_equal.
    rewrite Nat2Z.id.
    rewrite (take_S_r _ _ _ Hx), fmap_app, <- app_assoc. simpl.
    rewrite (drop_S _ _ _ Hy).
    replace n with (length (Some <$> take n xs) + 0)%nat at 1
      by (rewrite length_fmap, length_take; lia).
    rewrite insert_app_r. reflexivity.
Qed.

(** The loop of [newVectorIterator]. *)
Lemma iterator_loop h it e (xs : list ptr) sb items (n : nat) :
  h !! e = Some (ArrayBlock ((Some <$> xs) ++ sb)) ->
  h !! it = Some (IteratorCDT items) ->
  (n <= length xs)%nat ->
  for_each (upto (Z.of_nat n)) (fun i => addToIteratorList it e i) h
  = Ret tt (<[it := IteratorCDT (items ++ take n xs)]> h).
Proof.
  intros He Hit.
  assert (Hne : e <> it) by (intros ->; congruence).
  induction n as [|n IH]; intros Hn.
  - simpl. rewrite app_nil_r, insert_id by done. reflexivity.
  - unfold upto in *. rewrite seqZ_S, for_each_app.
    erewrite bind_Ret by (apply IH; lia).
    rewrite Z.add_0_l. simpl.
    destruct (lookup_lt_is_Some_2 xs n) as [x Hx]; [lia|].
    erewrite bind_Ret; cycle 1.
    { unfold addToIteratorList. erewrite bind_Ret; cycle 1.
      - eapply load_at with (p := x).
        + rewrite lookup_insert_ne by done. exact He.
        + lia.
        + rewrite Nat2Z.id. apply lookup_app_l_Some.
          rewrite list_lookup_fmap, Hx. reflexivity.
      - unfold append_item. rewrite lookup_insert_eq. reflexivity. }
    unfold mret, M_ret. rewrite insert_insert_eq.
    rewrite (take_S_r _ _ _ Hx), app_assoc. reflexivity.
Qed.

(** The loop of [insert], [for (i = count; i > index; i--)
    elements[i] = elements[i - 1]]: the slots that follow the first
    [length a] ones move one place up, into the slot [y] behind them. *)
Lemma shift_right_loop h e (a : list slot) (ms : list ptr) (y : slot) b :
  h !! e = Some (ArrayBlock (a ++ (Some <$> ms) ++ y :: b)) ->
  for_each (downfrom (Z.of_nat (length a + length ms)) (Z.of_nat (length a)))
           (fun i => x ← load e (i - 1); store e i x) h
  = Ret tt (<[e := ArrayBlock
                (a ++ default y (head (Some <$> ms)) :: (Some <$> ms) ++ b)]> h).
Proof.
  revert y b h. induction ms as [|w ms IH] using rev_ind; intros y b h He.
  - simpl. unfold downfrom. rewrite seqZ_nil by lia. simpl.
    rewrite insert_id by done. reflexivity.
  - unfold downfrom in *. rewrite length_app. simpl length.
    replace (Z.of_nat (length a + (length ms + 1)) - Z.of_nat (length a))
      with (Z.of_nat (S (length ms))) by lia.
    rewrite seqZ_S, reverse_snoc. simpl for_each.
    rewrite fmap_app, <- app_assoc in He. simpl in He.
    erewrite bind_Ret; cycle 1.
    { erewrite bind_Ret; cycle 1.
      - eapply load_at with (p := w); [exact He|lia|].
        replace (Z.to_nat (Z.of_nat (length a) + 1 + Z.of_nat (length ms) - 1))
          with (length a + (length (Some <$> ms) + 0))%nat
          by (rewrite length_fmap; lia).
        rewrite lookup_app_r by lia.
        replace (length a + (length (Some <$> ms) + 0) - length a)%nat
          with (length (Some <$> ms) + 0)%nat by lia.
        rewrite lookup_app_r by lia.
        replace (length (Some <$> ms) + 0 - length (Some <$> ms))%nat with 0%nat by lia.
        reflexivity.
      - eapply store_at; [exact He|].
        rewrite !length_app, length_fmap. simpl. lia. }
    replace (Z.to_nat (Z.of_nat (length a) + 1 + Z.of_nat (length ms)))
      with (length a + (length (Some <$> ms) + 1))%nat
      by (rewrite length_fmap; lia).
    rewrite insert_app_r, insert_app_r. simpl.
    replace (Z.of_nat (length ms))
      with (Z.of_nat (length a + length ms) - Z.of_nat (length a)) by lia.
    erewrite (IH (Some w) (Some w :: b)) by apply lookup_insert_eq.
    rewrite insert_insert_eq. do 3 f_equal.
    rewrite fmap_app, <- app_assoc. simpl.
    destruct ms; reflexivity.
Qed.

(** The loop of [removeVector], [for (i = index; i < count; i++)
    elements[i] = elements[i + 1]]: the slots behind slot [z] move one place
    down, over it; the last of them stays where it was as well. *)
Lemma shift_left_loop h e (a : list slot) (z : slot) (ms : list ptr) b :
  h !! e = Some (ArrayBlock (a ++ z :: (Some <$> ms) ++ b)) ->
  for_each (range (Z.of_nat (length a)) (Z.of_nat (length a + length ms)))
           (fun i => x ← load e (i + 1); store e i x) h
  = Ret tt (<[e := ArrayBlock
                (a ++ (Some <$> ms) ++ default z (last (Some <$> ms)) :: b)]> h).
Proof.
  revert a z h. induction ms as [|w ms IH]; intros a z h He.
  - simpl. unfold range. rewrite seqZ_nil by lia. simpl.
    rewrite insert_id by done. reflexivity.
  - unfold range in *. simpl length.
    rewrite seqZ_cons by lia. simpl for_each.
    simpl in He.
    erewrite bind_Ret; cycle 1.
    { erewrite bind_Ret; cycle 1.
      - eapply load_at with (p := w); [exact He|lia|].
        replace (Z.to_nat (Z.of_nat (length a) + 1)) with (length a + 1)%nat by lia.
        rewrite lookup_app_r by lia.
        replace (length a + 1 - length a)%nat with 1%nat by lia. reflexivity.
      - eapply store_at; [exact He|].
        rewrite length_app. simpl. lia. }
    replace (Z.to_nat (Z.of_nat (length a))) with (length a + 0)%nat by lia.
    rewrite insert_app_r. simpl.
    specialize (IH (a ++ [Some w]) (Some w)
                  (<[e := ArrayBlock (a ++ Some w :: Some w :: (Some <$> ms) ++ b)]> h)).
    rewrite length_app in IH. simpl length in IH.
    replace (Z.succ (Z.of_nat (length a))) with (Z.of_nat (length a + 1)) by lia.
    replace (Z.pred (Z.of_nat (length a + S (length ms)) - Z.of_nat (length a)))
      with (Z.of_nat (length a + 1 + length ms) - Z.of_nat (length a + 1)) by lia.
    unfold fmap in *. rewrite IH.
    + rewrite insert_insert_eq, <- app_assoc. simpl.
      rewrite default_last_cons. reflexivity.
    + rewrite lookup_insert_eq, <- app_assoc. reflexivity.
Qed.

(** ** Running vector.c *)

Lemma vec_at_distinct h v e xs junk : vec_at h v e xs junk -> v <> e.
Proof. intros [_ Hv He _] ->. congruence. Qed.

Lemma preserved_refl h v e : preserved h h v e.
Proof. intros l b _ _ H. exact H. Qed.

Ltac heap_lookup :=
  repeat first
    [ rewrite lookup_insert_eq
    | rewrite lookup_insert_ne by congruence
    | rewrite lookup_delete_ne by congruence ];
  try eassumption; try reflexivity.

Ltac run_by tac := erewrite bind_Ret by (solve [tac]).

Ltac run_field lem :=
  erewrite bind_Ret by (solve [eapply lem; heap_lookup]).

Section VectorProofs.

Variable can_alloc : Z -> bool.
Hypothesis can_alloc_sound :
  forall n, can_alloc n = true -> 0 <= n <= Int.INT_MAX.

(** A granted request for twice a capacity is a request for that many
    slots: the product did not leave the range of [int]. *)
Lemma granted_double (k : Z) :
  0 <= k <= Int.INT_MAX -> can_alloc (Int.mul k 2) = true ->
  Int.mul k 2 = 2 * k.
Proof.
  intros Hk Hg. apply can_alloc_sound in Hg. unfold Int.mul in *.
  destruct (decide (k * 2 <= Int.INT_MAX)) as [Hle|Hgt].
  - rewrite wrap_small; [lia|]. unfold Int.in_range, Int.INT_MIN, Int.INT_MAX in *. lia.
  - pose proof (wrap_overflow (k * 2)) as Hneg.
    unfold Int.INT_MAX in *. lia.
Qed.

(** [expandCapacity] moves the elements into a new buffer of twice the
    capacity and releases the old one. *)
Lemma expandCapacity_spec h v e xs junk :
  vec_at h v e xs junk ->
  can_alloc (Int.mul (Z.of_nat (length xs + length junk)) 2) = true ->
  exists h',
    expandCapacity can_alloc v h = Ret tt h' /\
    vec_at h' v (fresh_addr h) xs
           (replicate (length xs + 2 * length junk) None) /\
    preserved h h' v e.
Proof.
  intros Hvec Hg. pose proof (vec_at_distinct _ _ _ _ _ Hvec) as Hve.
  destruct Hvec as [Hnn Hv He Hfit].
  assert (Hdbl := granted_double (Z.of_nat (length xs + length junk))
                                 ltac:(lia) Hg).
  set (a := fresh_addr h).
  assert (Hav : a <> v) by (eapply fresh_addr_ne; exact Hv).
  assert (Hae : a <> e) by (eapply fresh_addr_ne; exact He).
  eexists. split; [|split].
  - unfold expandCapacity.
    run_field capacity_of_at.
    run_by ltac:(apply newArray_granted; exact Hg). fold a.
    run_field count_of_at.
    run_field elements_of_at.
    run_by ltac:(eapply copy_loop with (xs := xs) (n := length xs);
                 [heap_lookup| heap_lookup | congruence | lia
                 | rewrite length_replicate, Hdbl; lia]).
    run_by ltac:(eapply freeBlock_at; heap_lookup).
    run_by ltac:(eapply set_elements_at; heap_lookup).
    eapply set_capacity_at. heap_lookup.
  - rewrite insert_insert_eq. split.
    + exact Hnn.
    + heap_lookup. rewrite Hdbl, length_replicate. do 3 f_equal. lia.
    + heap_lookup. rewrite firstn_all, drop_replicate, Hdbl. do 4 f_equal. lia.
    + rewrite length_replicate.
      apply can_alloc_sound in Hg. rewrite Hdbl in Hg. lia.
  - intros l b Hlv Hle Hl. rewrite insert_insert_eq.
    assert (l <> a) by (intros ->; unfold a in Hl; rewrite fresh_addr_None in Hl; done).
    heap_lookup.
Qed.

(** A granted request for one slot more than a count is a request for
    that many slots. *)
Lemma granted_succ (c : Z) :
  0 <= c <= Int.INT_MAX -> can_alloc (Int.add c 1) = true ->
  Int.add c 1 = c + 1.
Proof.
  intros Hc Hg. apply can_alloc_sound in Hg. unfold Int.add in *.
  destruct (decide (c + 1 <= Int.INT_MAX)) as [Hle|Hgt].
  - rewrite wrap_small; [lia|]. unfold Int.in_range, Int.INT_MIN, Int.INT_MAX in *. lia.
  - pose proof (wrap_overflow (c + 1)) as Hneg.
    unfold Int.INT_MAX in *. lia.
Qed.

(** *** Creation *)

Lemma newVector_spec h :
  can_alloc INITIAL_CAPACITY = true ->
  exists v e h',
    newVector can_alloc h = Ret v h' /\
    h !! v = None /\ h !! e = None /\
    vec_at h' v e [] (replicate (Z.to_nat INITIAL_CAPACITY) None) /\
    (forall l b, h !! l = Some b -> h' !! l = Some b).
Proof.
  intros Hg. set (v := fresh_addr h).
  set (h1 := <[v := VectorCDT NULL 0 0]> h).
  set (e := fresh_addr h1).
  assert (Hev : e <> v).
  { eapply fresh_addr_ne. unfold h1. apply lookup_insert_eq. }
  exists v, e. eexists. split; [|split; [|split; [|split]]].
  - unfold newVector, newBlock.
    run_by ltac:(apply alloc_at). fold v h1.
    run_by ltac:(apply newArray_granted; exact Hg). fold e.
    run_by ltac:(eapply set_elements_at; heap_lookup; unfold h1; heap_lookup).
    run_by ltac:(eapply set_count_at; heap_lookup).
    run_by ltac:(eapply set_capacity_at; heap_lookup).
    reflexivity.
  - apply fresh_addr_None.
  - destruct (h !! e) as [b|] eqn:E; [|done].
    assert (h1 !! e = Some b) by (unfold h1; heap_lookup).
    unfold e in H. rewrite fresh_addr_None in H. done.
  - rewrite !insert_insert_eq. split.
    + apply fresh_addr_not_NULL.
    + heap_lookup.
    + heap_lookup.
    + simpl. unfold Int.INT_MAX. lia.
  - intros l b Hl. rewrite !insert_insert_eq.
    assert (l <> v) by (intros ->; unfold v in Hl; rewrite fresh_addr_None in Hl; done).
    assert (h1 !! l = Some b) by (unfold h1; heap_lookup).
    assert (l <> e) by (intros ->; unfold e in *; rewrite fresh_addr_None in *; done).
    heap_lookup.
Qed.

Lemma arrayToVector_null n h : arrayToVector can_alloc NULL n h = Ret NULL h.
Proof. unfold arrayToVector. rewrite decide_True by done. reflexivity. Qed.

Lemma arrayToVector_spec h array (items : list ptr) rest :
  array <> NULL ->
  h !! array = Some (ArrayBlock ((Some <$> items) ++ rest)) ->
  can_alloc (Z.of_nat (length items)) = true ->
  exists v e h',
    arrayToVector can_alloc array (Z.of_nat (length items)) h = Ret v h' /\
    h !! v = None /\ h !! e = None /\
    vec_at h' v e items [] /\
    (forall l b, h !! l = Some b -> h' !! l = Some b).
Proof.
  intros Hnn Harr Hg. set (v := fresh_addr h).
  set (h1 := <[v := VectorCDT NULL 0 0]> h).
  set (e := fresh_addr h1).
  assert (Hev : e <> v).
  { eapply fresh_addr_ne. unfold h1. apply lookup_insert_eq. }
  assert (Hva : v <> array) by (eapply fresh_addr_ne; exact Harr).
  assert (Harr1 : h1 !! array = Some (ArrayBlock ((Some <$> items) ++ rest)))
    by (unfold h1; heap_lookup).
  assert (Hea : e <> array) by (eapply fresh_addr_ne; exact Harr1).
  exists v, e. eexists. split; [|split; [|split; [|split]]].
  - unfold arrayToVector, newBlock. rewrite decide_False by done.
    run_by ltac:(apply alloc_at). fold v h1.
    run_by ltac:(apply newArray_granted; exact Hg). fold e.
    run_by ltac:(eapply set_elements_at; heap_lookup; unfold h1; heap_lookup).
    run_by ltac:(eapply set_count_at; heap_lookup).
    run_by ltac:(eapply set_capacity_at; heap_lookup).
    run_by ltac:(eapply copy_loop with (xs := items) (n := length items);
                 [heap_lookup | heap_lookup | congruence | lia
                 | rewrite length_replicate; lia]).
    reflexivity.
  - apply fresh_addr_None.
  - destruct (h !! e) as [b|] eqn:E; [|done].
    assert (h1 !! e = Some b) by (unfold h1; heap_lookup).
    unfold e in H. rewrite fresh_addr_None in H. done.
  - rewrite !insert_insert_eq. split.
    + apply fresh_addr_not_NULL.
    + heap_lookup. simpl length. rewrite Nat.add_0_r. reflexivity.
    + heap_lookup. rewrite firstn_all, drop_replicate, Nat2Z.id, Nat.sub_diag.
      reflexivity.
    + apply can_alloc_sound in Hg. simpl. lia.
  - intros l b Hl. rewrite !insert_insert_eq.
    assert (l <> v) by (intros ->; unfold v in Hl; rewrite fresh_addr_None in Hl; done).
    assert (h1 !! l = Some b) by (unfold h1; heap_lookup).
    assert (l <> e) by (intros ->; unfold e in *; rewrite fresh_addr_None in *; done).
    rewrite (insert_insert_ne (M := gmap Z)) by congruence.
    rewrite insert_insert_eq. heap_lookup.
Qed.

Lemma vectorToArray_null h : vectorToArray can_alloc NULL h = Ret NULL h.
Proof. unfold vectorToArray. rewrite decide_True by done. reflexivity. Qed.

Lemma vectorToArray_spec h v e xs junk :
  vec_at h v e xs junk ->
  can_alloc (Int.add (Z.of_nat (length xs)) 1) = true ->
  vectorToArray can_alloc v h =
    Ret (fresh_addr h)
        (<[fresh_addr h := ArrayBlock ((Some <$> xs) ++ [Some NULL])]> h).
Proof.
  intros [Hnn Hv He Hfit] Hg.
  assert (Hsucc := granted_succ (Z.of_nat (length xs)) ltac:(lia) Hg).
  set (a := fresh_addr h).
  assert (Hav : a <> v) by (eapply fresh_addr_ne; exact Hv).
  assert (Hae : a <> e) by (eapply fresh_addr_ne; exact He).
  unfold vectorToArray. rewrite decide_False by done.
  run_field count_of_at.
  run_by ltac:(apply newArray_granted; exact Hg). fold a.
  run_field elements_of_at.
  run_by ltac:(eapply copy_loop with (xs := xs) (n := length xs);
               [heap_lookup | heap_lookup | congruence | lia
               | rewrite length_replicate, Hsucc; lia]).
  run_by ltac:(eapply store_at;
               [heap_lookup
               | rewrite length_app, length_fmap, length_take, length_drop,
                   length_replicate, Hsucc; lia]).
  unfold mret, M_ret. rewrite !insert_insert_eq. do 3 f_equal.
  rewrite firstn_all, drop_replicate, Hsucc, Nat2Z.id.
  replace (Z.to_nat (Z.of_nat (length xs) + 1) - length xs)%nat with 1%nat by lia.
  replace (length xs) with (length (Some <$> xs) + 0)%nat at 1
    by (rewrite length_fmap; lia).
  rewrite insert_app_r. reflexivity.
Qed.

(** *** Observation *)

Lemma sizeVector_spec h v e xs junk :
  vec_at h v e xs junk -> sizeVector v h = Ret (Z.of_nat (length xs)) h.
Proof. intros [_ Hv _ _]. unfold sizeVector. eapply count_of_at, Hv. Qed.

Lemma isEmptyVector_spec h v e xs junk :
  vec_at h v e xs junk ->
  isEmptyVector v h = Ret (bool_decide (xs = [])) h.
Proof.
  intros [_ Hv _ _]. unfold isEmptyVector.
  run_field count_of_at. unfold mret, M_ret. f_equal.
  apply bool_decide_ext. destruct xs; simpl; split; intros; (done || lia).
Qed.

Lemma getVector_spec h v e xs junk index x :
  vec_at h v e xs junk ->
  0 <= index -> xs !! Z.to_nat index = Some x ->
  getVector v index h = Ret x h.
Proof.
  intros [_ Hv He _] H0 Hx. unfold getVector.
  apply lookup_lt_Some in Hx as Hlt.
  run_field count_of_at.
  rewrite decide_False by lia.
  run_by ltac:(reflexivity).
  run_field elements_of_at.
  eapply load_at; [exact He|lia|].
  apply lookup_app_l_Some. rewrite list_lookup_fmap, Hx. reflexivity.
Qed.

Lemma getVector_out_of_range h v e c k index :
  h !! v = Some (VectorCDT e c k) ->
  index < 0 \/ index >= c ->
  getVector v index h = Fatal (Error "get: Index value out of range") h.
Proof.
  intros Hv Hout. unfold getVector.
  run_field count_of_at.
  rewrite decide_True by done. reflexivity.
Qed.

(** *** Mutation in place *)

Lemma clearVector_spec h v e xs junk :
  vec_at h v e xs junk ->
  exists h',
    clearVector v h = Ret tt h' /\
    vec_at h' v e [] ((Some <$> xs) ++ junk) /\
    preserved h h' v e.
Proof.
  intros Hvec. pose proof (vec_at_distinct _ _ _ _ _ Hvec) as Hve.
  destruct Hvec as [Hnn Hv He Hfit].
  eexists. split; [|split].
  - unfold clearVector. eapply set_count_at, Hv.
  - split.
    + exact Hnn.
    + heap_lookup. simpl. rewrite length_app, length_fmap. reflexivity.
    + heap_lookup.
    + simpl. rewrite length_app, length_fmap. exact Hfit.
  - intros l b Hlv Hle Hl. heap_lookup.
Qed.

Lemma setVector_spec h v e xs junk index value :
  vec_at h v e xs junk ->
  0 <= index < Z.of_nat (length xs) ->
  exists h',
    setVector v index value h = Ret tt h' /\
    vec_at h' v e (<[Z.to_nat index := value]> xs) junk /\
    preserved h h' v e.
Proof.
  intros Hvec Hin. pose proof (vec_at_distinct _ _ _ _ _ Hvec) as Hve.
  destruct Hvec as [Hnn Hv He Hfit].
  eexists. split; [|split].
  - unfold setVector.
    run_field count_of_at.
    rewrite decide_False by lia.
    run_by ltac:(reflexivity).
    run_field elements_of_at.
    eapply store_at; [exact He|].
    rewrite length_app, length_fmap. lia.
  - split.
    + exact Hnn.
    + heap_lookup. rewrite length_insert. exact Hv.
    + heap_lookup. rewrite insert_app_l by (rewrite length_fmap; lia).
      rewrite list_fmap_insert. reflexivity.
    + rewrite length_insert. exact Hfit.
  - intros l b Hlv Hle Hl. heap_lookup.
Qed.

Lemma setVector_out_of_range h v e c k index value :
  h !! v = Some (VectorCDT e c k) ->
  index < 0 \/ index >= c ->
  setVector v index value h = Fatal (Error "get: Index value out of range") h.
Proof.
  intros Hv Hout. unfold setVector.
  run_field count_of_at.
  rewrite decide_True by done. reflexivity.
Qed.

(** *** Cloning *)

Lemma cloneVector_spec h v e xs junk :
  vec_at h v e xs junk ->
  can_alloc (Z.of_nat (length xs + length junk)) = true ->
  exists v' e' h',
    cloneVector can_alloc v h = Ret v' h' /\
    h !! v' = None /\ h !! e' = None /\ v' <> e' /\
    vec_at h' v' e' xs (replicate (length junk) None) /\
    (forall l b, h !! l = Some b -> h' !! l = Some b).
Proof.
  intros Hvec Hg. pose proof (vec_at_distinct _ _ _ _ _ Hvec) as Hve.
  destruct Hvec as [Hnn Hv He Hfit].
  set (v' := fresh_addr h).
  set (h1 := <[v' := VectorCDT NULL 0 0]> h).
  assert (Hv'v : v' <> v) by (eapply fresh_addr_ne; exact Hv).
  assert (Hv'e : v' <> e) by (eapply fresh_addr_ne; exact He).
  set (h2 := <[v' := VectorCDT NULL (Z.of_nat (length xs))
                        (Z.of_nat (length xs + length junk))]> h).
  set (e' := fresh_addr h2).
  assert (He'v' : e' <> v') by (eapply fresh_addr_ne; unfold h2; apply lookup_insert_eq).
  assert (He'v : e' <> v) by (eapply fresh_addr_ne; unfold h2; heap_lookup).
  assert (He'e : e' <> e) by (eapply fresh_addr_ne; unfold h2; heap_lookup).
  exists v', e'. eexists. split; [|split; [|split; [|split; [|split]]]].
  - unfold cloneVector, newBlock.
    run_by ltac:(apply alloc_at). fold v' h1.
    run_by ltac:(eapply count_of_at; unfold h1; heap_lookup).
    run_by ltac:(eapply set_count_at; unfold h1; heap_lookup).
    run_by ltac:(eapply capacity_of_at; unfold h1; heap_lookup).
    run_by ltac:(eapply set_capacity_at; unfold h1; heap_lookup).
    unfold h1. rewrite !insert_insert_eq. fold h2.
    run_by ltac:(apply newArray_granted; exact Hg). fold e'.
    run_by ltac:(eapply set_elements_at; unfold h2; heap_lookup).
    run_by ltac:(eapply elements_of_at; unfold h2; heap_lookup).
    run_by ltac:(eapply copy_loop with (xs := xs) (n := length xs);
                 [unfold h2; heap_lookup | heap_lookup | congruence | lia
                 | rewrite length_replicate; lia]).
    reflexivity.
  - apply fresh_addr_None.
  - destruct (h !! e') as [b|] eqn:E; [|done].
    assert (h2 !! e' = Some b) by (unfold h2; heap_lookup).
    unfold e' in H. rewrite fresh_addr_None in H. done.
  - congruence.
  - split.
    + apply fresh_addr_not_NULL.
    + heap_lookup. rewrite length_replicate. reflexivity.
    + heap_lookup. rewrite firstn_all, drop_replicate, Nat2Z.id.
      replace (length xs + length junk - length xs)%nat
        with (length junk) by lia.
      reflexivity.
    + rewrite length_replicate. exact Hfit.
  - intros l b Hl.
    assert (l <> v') by (intros ->; unfold v' in Hl; rewrite fresh_addr_None in Hl; done).
    assert (h2 !! l = Some b) by (unfold h2; heap_lookup).
    assert (l <> e') by (intros ->; unfold e' in *; rewrite fresh_addr_None in *; done).
    unfold h2. heap_lookup.
Qed.

(** *** Appending *)

Lemma int_succ_small (c : Z) : 0 <= c < Int.INT_MAX -> Int.add c 1 = c + 1.
Proof.
  intros Hc. unfold Int.add. apply wrap_small.
  unfold Int.in_range, Int.INT_MIN, Int.INT_MAX in *. lia.
Qed.

Lemma int_pred_small (c : Z) : 0 < c <= Int.INT_MAX -> Int.sub c 1 = c - 1.
Proof.
  intros Hc. unfold Int.sub. apply wrap_small.
  unfold Int.in_range, Int.INT_MIN, Int.INT_MAX in *. lia.
Qed.

Lemma preserved_trans h h1 h2 v e a :
  h !! a = None ->
  preserved h h1 v e -> preserved h1 h2 v a -> preserved h h2 v e.
Proof.
  intros Ha H1 H2 l b Hlv Hle Hl. apply H2; [done| |by apply H1].
  intros ->. congruence.
Qed.

(** What [addVector] does once the buffer has a free slot. *)
Lemma addVector_tail h v e xs y junk value :
  vec_at h v e xs (y :: junk) ->
  exists h',
    (e0 ← elements_of v; c' ← count_of v;
     set_count v (Int.add c' 1);; store e0 c' value) h = Ret tt h' /\
    vec_at h' v e (xs ++ [value]) junk /\
    preserved h h' v e.
Proof.
  intros Hvec. pose proof (vec_at_distinct _ _ _ _ _ Hvec) as Hve.
  destruct Hvec as [Hnn Hv He Hfit]. simpl length in *.
  eexists. split; [|split].
  - run_field elements_of_at.
    run_field count_of_at.
    run_by ltac:(eapply set_count_at; heap_lookup).
    eapply store_at; [heap_lookup|].
    rewrite length_app, length_fmap. simpl. lia.
  - rewrite int_succ_small by lia. split.
    + exact Hnn.
    + heap_lookup. rewrite length_app. simpl. do 3 f_equal; lia.
    + heap_lookup. rewrite Nat2Z.id.
      replace (length xs) with (length (Some <$> xs) + 0)%nat at 1
        by (rewrite length_fmap; lia).
      rewrite insert_app_r, fmap_app, <- app_assoc. reflexivity.
    + rewrite length_app. simpl. lia.
  - intros l b Hlv Hle Hl. heap_lookup.
Qed.

Lemma addVector_room h v e xs y junk value :
  vec_at h v e xs (y :: junk) ->
  exists h',
    addVector can_alloc v value h = Ret tt h' /\
    vec_at h' v e (xs ++ [value]) junk /\
    preserved h h' v e.
Proof.
  intros Hvec. destruct (addVector_tail _ _ _ _ _ _ value Hvec) as (h' & Hrun & Hres).
  exists h'. split; [|exact Hres].
  destruct Hvec as [Hnn Hv He Hfit].
  unfold addVector.
  run_field count_of_at.
  run_field capacity_of_at.
  rewrite decide_False by (simpl; lia).
  run_by ltac:(reflexivity).
  exact Hrun.
Qed.

Lemma addVector_full h v e xs value :
  vec_at h v e xs [] -> xs <> [] ->
  can_alloc (Int.mul (Z.of_nat (length xs)) 2) = true ->
  exists h',
    addVector can_alloc v value h = Ret tt h' /\
    vec_at h' v (fresh_addr h) (xs ++ [value])
           (replicate (length xs - 1) None) /\
    preserved h h' v e.
Proof.
  intros Hvec Hne Hg.
  assert (Hlen : (0 < length xs)%nat) by (destruct xs; simpl; [done|lia]).
  destruct (expandCapacity_spec h v e xs [] Hvec) as (h1 & Hexp & Hvec1 & Hpres1).
  { simpl. rewrite Nat.add_0_r. exact Hg. }
  replace (length xs + 2 * length (@nil slot))%nat
    with (S (length xs - 1)) in Hvec1 by (simpl; lia).
  rewrite replicate_S in Hvec1.
  destruct (addVector_tail _ _ _ _ _ _ value Hvec1) as (h' & Hrun & Hvec' & Hpres').
  exists h'. split; [|split].
  - destruct Hvec as [Hnn Hv He Hfit]. simpl length in Hv. rewrite Nat.add_0_r in Hv.
    unfold addVector.
    run_field count_of_at.
    run_field capacity_of_at.
    rewrite decide_True by done.
    run_by ltac:(exact Hexp).
    exact Hrun.
  - exact Hvec'.
  - eapply preserved_trans; [apply fresh_addr_None|exact Hpres1|exact Hpres'].
Qed.

Lemma addVector_refused h v e xs value :
  vec_at h v e xs [] ->
  can_alloc (Int.mul (Z.of_nat (length xs)) 2) = false ->
  addVector can_alloc v value h = Fatal NoMemory h.
Proof.
  intros [Hnn Hv He Hfit] Hg. simpl length in Hv. rewrite Nat.add_0_r in Hv.
  unfold addVector.
  run_field count_of_at.
  run_field capacity_of_at.
  rewrite decide_True by done.
  erewrite bind_Fatal; [reflexivity|].
  unfold expandCapacity.
  run_field capacity_of_at.
  erewrite bind_Fatal; [reflexivity|].
  apply newArray_refused. exact Hg.
Qed.

(** A vector of capacity zero stays at capacity zero when it is expanded,
    and the slot [addVector] then writes lies outside the buffer. *)
Lemma addVector_capacity_zero h v e value :
  vec_at h v e [] [] ->
  can_alloc (Int.mul 0 2) = true ->
  addVector can_alloc v value h = Undefined.
Proof.
  intros Hvec Hg.
  destruct (expandCapacity_spec h v e [] [] Hvec Hg) as (h1 & Hexp & Hvec1 & _).
  destruct Hvec as [Hnn Hv He Hfit]. destruct Hvec1 as [_ Hv1 He1 _].
  simpl in *.
  unfold addVector.
  run_field count_of_at.
  run_field capacity_of_at.
  rewrite decide_True by done.
  run_by ltac:(exact Hexp).
  run_field elements_of_at.
  run_field count_of_at.
  run_by ltac:(eapply set_count_at; heap_lookup).
  eapply store_outside.
  - rewrite lookup_insert_ne; [exact He1|]. intros ->. congruence.
  - simpl. lia.
Qed.

(** *** Insertion *)

(** What [insert] does once the index is checked and the buffer has a
    free slot. *)
Lemma insert_tail h v e xs y junk index value :
  vec_at h v e xs (y :: junk) ->
  0 <= index <= Z.of_nat (length xs) ->
  exists h',
    (e0 ← elements_of v;
     for_each (downfrom (Z.of_nat (length xs)) index)
       (fun i => x ← load e0 (i - 1); store e0 i x);;
     store e0 index value;;
     c' ← count_of v;
     set_count v (Int.add c' 1)) h = Ret tt h' /\
    vec_at h' v e
           (take (Z.to_nat index) xs ++ value :: drop (Z.to_nat index) xs)
           junk /\
    preserved h h' v e.
Proof.
  intros Hvec Hin. pose proof (vec_at_distinct _ _ _ _ _ Hvec) as Hve.
  destruct Hvec as [Hnn Hv He Hfit]. simpl length in *.
  set (i := Z.to_nat index).
  set (a := (Some <$> take i xs) : list slot).
  assert (Hla : length a = i).
  { unfold a. rewrite length_fmap, length_take. lia. }
  assert (Hlm : (length a + length (drop i xs))%nat = length xs).
  { rewrite Hla, length_drop. lia. }
  assert (He' : h !! e = Some (ArrayBlock (a ++ (Some <$> drop i xs) ++ y :: junk))).
  { rewrite He. unfold a. rewrite app_assoc, <- fmap_app, take_drop. reflexivity. }
  eexists. split; [|split].
  - run_field elements_of_at.
    replace (Z.of_nat (length xs))
      with (Z.of_nat (length a + length (drop i xs))) by lia.
    replace index with (Z.of_nat (length a)) by lia.
    run_by ltac:(eapply shift_right_loop; exact He').
    run_by ltac:(eapply store_at;
                 [heap_lookup | rewrite length_app; simpl; lia]).
    run_by ltac:(eapply count_of_at; heap_lookup).
    eapply set_count_at. heap_lookup.
  - rewrite int_succ_small by lia. rewrite insert_insert_eq.
    split.
    + exact Hnn.
    + heap_lookup. rewrite length_app. simpl. rewrite length_take, length_drop.
      do 3 f_equal; lia.
    + heap_lookup. rewrite Nat2Z.id.
      replace (length a) with (length a + 0)%nat at 1 by lia.
      rewrite insert_app_r. simpl. unfold a.
      rewrite fmap_app, <- app_assoc. reflexivity.
    + rewrite length_app. simpl. rewrite length_take, length_drop. lia.
  - intros l b Hlv Hle Hl. rewrite insert_insert_eq. heap_lookup.
Qed.

Lemma insert_out_of_range h v e c k index value :
  h !! v = Some (VectorCDT e c k) ->
  index < 0 \/ index > c ->
  insert can_alloc v index value h
  = Fatal (Error "insert: Index value out of range") h.
Proof.
  intros Hv Hout. unfold insert.
  run_field count_of_at.
  rewrite decide_True by done. reflexivity.
Qed.

Lemma insert_room h v e xs y junk index value :
  vec_at h v e xs (y :: junk) ->
  0 <= index <= Z.of_nat (length xs) ->
  exists h',
    insert can_alloc v index value h = Ret tt h' /\
    vec_at h' v e
           (take (Z.to_nat index) xs ++ value :: drop (Z.to_nat index) xs)
           junk /\
    preserved h h' v e.
Proof.
  intros Hvec Hin.
  destruct (insert_tail _ _ _ _ _ _ index value Hvec Hin) as (h' & Hrun & Hres).
  exists h'. split; [|exact Hres].
  destruct Hvec as [Hnn Hv He Hfit].
  unfold insert.
  run_field count_of_at.
  rewrite decide_False by lia.
  run_by ltac:(reflexivity).
  run_field capacity_of_at.
  rewrite decide_False by (simpl; lia).
  run_by ltac:(reflexivity).
  exact Hrun.
Qed.

Lemma insert_full h v e xs index value :
  vec_at h v e xs [] -> xs <> [] ->
  0 <= index <= Z.of_nat (length xs) ->
  can_alloc (Int.mul (Z.of_nat (length xs)) 2) = true ->
  exists h',
    insert can_alloc v index value h = Ret tt h' /\
    vec_at h' v (fresh_addr h)
           (take (Z.to_nat index) xs ++ value :: drop (Z.to_nat index) xs)
           (replicate (length xs - 1) None) /\
    preserved h h' v e.
Proof.
  intros Hvec Hne Hin Hg.
  assert (Hlen : (0 < length xs)%nat) by (destruct xs; simpl; [done|lia]).
  destruct (expandCapacity_spec h v e xs [] Hvec) as (h1 & Hexp & Hvec1 & Hpres1).
  { simpl. rewrite Nat.add_0_r. exact Hg. }
  replace (length xs + 2 * length (@nil slot))%nat
    with (S (length xs - 1)) in Hvec1 by (simpl; lia).
  rewrite replicate_S in Hvec1.
  destruct (insert_tail _ _ _ _ _ _ index value Hvec1 Hin)
    as (h' & Hrun & Hvec' & Hpres').
  exists h'. split; [|split].
  - destruct Hvec as [Hnn Hv He Hfit]. simpl length in Hv. rewrite Nat.add_0_r in Hv.
    unfold insert.
    run_field count_of_at.
    rewrite decide_False by lia.
    run_by ltac:(reflexivity).
    run_field capacity_of_at.
    rewrite decide_True by done.
    run_by ltac:(exact Hexp).
    exact Hrun.
  - exact Hvec'.
  - eapply preserved_trans; [apply fresh_addr_None|exact Hpres1|exact Hpres'].
Qed.

Lemma insert_refused h v e xs index value :
  vec_at h v e xs [] ->
  0 <= index <= Z.of_nat (length xs) ->
  can_alloc (Int.mul (Z.of_nat (length xs)) 2) = false ->
  insert can_alloc v index value h = Fatal NoMemory h.
Proof.
  intros [Hnn Hv He Hfit] Hin Hg. simpl length in Hv. rewrite Nat.add_0_r in Hv.
  unfold insert.
  run_field count_of_at.
  rewrite decide_False by lia.
  run_by ltac:(reflexivity).
  run_field capacity_of_at.
  rewrite decide_True by done.
  erewrite bind_Fatal; [reflexivity|].
  unfold expandCapacity.
  run_field capacity_of_at.
  erewrite bind_Fatal; [reflexivity|].
  apply newArray_refused. exact Hg.
Qed.

Lemma insert_capacity_zero h v e value :
  vec_at h v e [] [] ->
  can_alloc (Int.mul 0 2) = true ->
  insert can_alloc v 0 value h = Undefined.
Proof.
  intros Hvec Hg.
  destruct (expandCapacity_spec h v e [] [] Hvec Hg) as (h1 & Hexp & Hvec1 & _).
  destruct Hvec as [Hnn Hv He Hfit]. destruct Hvec1 as [_ Hv1 He1 _].
  simpl in *.
  unfold insert.
  run_field count_of_at.
  rewrite decide_False by lia.
  run_by ltac:(reflexivity).
  run_field capacity_of_at.
  rewrite decide_True by done.
  run_by ltac:(exact Hexp).
  run_field elements_of_at.
  run_by ltac:(reflexivity).
  erewrite bind_Undefined; [reflexivity|].
  eapply store_outside; [exact He1|]. simpl. lia.
Qed.

(** *** Removal *)

Lemma removeVector_out_of_range h v e c k index :
  h !! v = Some (VectorCDT e c k) ->
  index < 0 \/ index >= c ->
  removeVector v index h = Fatal (Error "remove: Index value out of range") h.
Proof.
  intros Hv Hout. unfold removeVector.
  run_field count_of_at.
  rewrite decide_True by done. reflexivity.
Qed.

Lemma removeVector_spec h v e xs junk index :
  vec_at h v e xs junk ->
  0 <= index < Z.of_nat (length xs) ->
  exists h' stale,
    removeVector v index h = Ret tt h' /\
    vec_at h' v e (delete (Z.to_nat index) xs) (stale :: junk) /\
    preserved h h' v e.
Proof.
  intros Hvec Hin. pose proof (vec_at_distinct _ _ _ _ _ Hvec) as Hve.
  destruct Hvec as [Hnn Hv He Hfit].
  set (i := Z.to_nat index).
  destruct (lookup_lt_is_Some_2 xs i) as [z Hz]; [lia|].
  set (a := (Some <$> take i xs) : list slot).
  set (ms := drop (S i) xs).
  assert (Hla : length a = i).
  { unfold a. rewrite length_fmap, length_take. lia. }
  assert (Hlm : length ms = (length xs - 1 - i)%nat).
  { unfold ms. rewrite length_drop. lia. }
  assert (He' : h !! e = Some (ArrayBlock (a ++ Some z :: (Some <$> ms) ++ junk))).
  { rewrite He. unfold a, ms.
    rewrite <- (take_drop_middle xs i z Hz) at 1.
    rewrite fmap_app, <- app_assoc. reflexivity. }
  eexists. eexists. split; [|split].
  - unfold removeVector.
    run_field count_of_at.
    rewrite decide_False by lia.
    run_by ltac:(reflexivity).
    run_by ltac:(eapply set_count_at; heap_lookup).
    run_by ltac:(eapply count_of_at; heap_lookup).
    run_by ltac:(eapply elements_of_at; heap_lookup).
    rewrite int_pred_small by lia.
    replace (Z.of_nat (length xs) - 1)
      with (Z.of_nat (length a + length ms)) by lia.
    replace index with (Z.of_nat (length a)) by lia.
    eapply shift_left_loop. heap_lookup.
  - assert (Hdel : length (delete i xs) = (length xs - 1)%nat).
    { rewrite length_delete by eauto. lia. }
    split.
    + exact Hnn.
    + heap_lookup. rewrite Hdel. simpl. do 3 f_equal; lia.
    + heap_lookup. rewrite delete_take_drop, fmap_app, <- app_assoc.
      reflexivity.
    + rewrite Hdel. simpl. lia.
  - intros l b Hlv Hle Hl. heap_lookup.
Qed.

End VectorProofs.

Lemma vec_at_observed h v e xs junk : vec_at h v e xs junk -> observed h v xs.
Proof.
  intros Hvec. split.
  - eapply sizeVector_spec, Hvec.
  - intros i x Hx. eapply getVector_spec; [exact Hvec|lia|].
    rewrite Nat2Z.id. exact Hx.
Qed.

(** ** The iterator *)

Lemma newVectorIterator_spec h v e xs junk :
  vec_at h v e xs junk ->
  newVectorIterator v h
  = Ret (fresh_addr h) (<[fresh_addr h := IteratorCDT xs]> h).
Proof.
  intros [Hnn Hv He Hfit]. set (it := fresh_addr h).
  assert (Hiv : it <> v) by (eapply fresh_addr_ne; exact Hv).
  assert (Hie : it <> e) by (eapply fresh_addr_ne; exact He).
  unfold newVectorIterator, newListIterator.
  run_by ltac:(apply alloc_at). fold it.
  run_field count_of_at.
  run_field elements_of_at.
  run_by ltac:(eapply iterator_loop with (xs := xs) (n := length xs);
               [heap_lookup | heap_lookup | lia]).
  unfold mret, M_ret. rewrite insert_insert_eq, firstn_all. reflexivity.
Qed.

Lemma drive_spec (xs : list ptr) : forall h it fuel,
  h !! it = Some (IteratorCDT xs) -> (length xs <= fuel)%nat ->
  drive fuel it h = Ret xs (<[it := IteratorCDT []]> h).
Proof.
  induction xs as [|x xs IH]; intros h it fuel Hit Hfuel.
  - rewrite insert_id by done. destruct fuel as [|fuel]; [reflexivity|].
    simpl. unfold mbind, M_bind, stepIterator. rewrite Hit. reflexivity.
  - destruct fuel as [|fuel]; [simpl in Hfuel; lia|].
    simpl. unfold mbind, M_bind, stepIterator. rewrite Hit.
    fold (stepIterator it).
    rewrite (IH (<[it := IteratorCDT xs]> h) it fuel).
    + unfold mret, M_ret. rewrite insert_insert_eq. reflexivity.
    + apply lookup_insert_eq.
    + simpl in Hfuel. lia.
Qed.

Section Sequences.

Variable can_alloc : Z -> bool.
Hypothesis can_alloc_sound :
  forall n, can_alloc n = true -> 0 <= n <= Int.INT_MAX.

(** Every mutating call on a vector either returns, leaving a vector whose
    capacity is not smaller and every other block as it was, or halts
    in the error reporter or in the allocator without a change to the heap,
    or runs into an access outside the buffer. *)
Lemma mutate_step h v e xs junk m :
  vec_at h v e xs junk ->
  (exists h' e' xs' junk',
      mutate can_alloc v m h = Ret tt h' /\
      vec_at h' v e' xs' junk' /\
      preserved h h' v e /\
      (e' = e \/ h !! e' = None) /\
      (length xs + length junk <= length xs' + length junk')%nat)
  \/ (exists c, mutate can_alloc v m h = Fatal c h)
  \/ mutate can_alloc v m h = Undefined.
Proof.
  intros Hvec. destruct m as [index value|value|index value|index|]; simpl.
  - destruct (decide (0 <= index < Z.of_nat (length xs))) as [Hin|Hout].
    + destruct (setVector_spec h v e xs junk index value Hvec Hin)
        as (h' & Hrun & Hvec' & Hpres).
      left. exists h', e, (<[Z.to_nat index := value]> xs), junk.
      rewrite length_insert. auto 10.
    + right. left. eexists.
      eapply setVector_out_of_range; [apply Hvec|lia].
  - destruct junk as [|y junk].
    + destruct (can_alloc (Int.mul (Z.of_nat (length xs)) 2)) eqn:Hg.
      * destruct xs as [|x0 xs].
        -- right. right. apply addVector_capacity_zero with (e := e); auto.
        -- destruct (addVector_full can_alloc can_alloc_sound h v e (x0 :: xs) value
                       Hvec ltac:(done) Hg) as (h' & Hrun & Hvec' & Hpres).
           left. exists h', (fresh_addr h), ((x0 :: xs) ++ [value]),
             (replicate (length (x0 :: xs) - 1) None).
           split; [exact Hrun|]. split; [exact Hvec'|]. split; [exact Hpres|].
           split; [right; apply fresh_addr_None|].
           rewrite length_app, length_replicate. simpl. lia.
      * right. left. exists NoMemory. eapply addVector_refused; eauto.
    + destruct (addVector_room can_alloc h v e xs y junk value Hvec)
        as (h' & Hrun & Hvec' & Hpres).
      left. exists h', e, (xs ++ [value]), junk.
      rewrite length_app. simpl. split; [exact Hrun|]. split; [exact Hvec'|].
      split; [exact Hpres|]. split; [by left|lia].
  - destruct (decide (0 <= index <= Z.of_nat (length xs))) as [Hin|Hout].
    + assert (Hlen : length (take (Z.to_nat index) xs
                               ++ value :: drop (Z.to_nat index) xs)
                     = S (length xs)).
      { rewrite length_app. simpl. rewrite length_take, length_drop. lia. }
      destruct junk as [|y junk].
      * destruct (can_alloc (Int.mul (Z.of_nat (length xs)) 2)) eqn:Hg.
        -- destruct xs as [|x0 xs].
           ++ right. right. simpl in Hin. replace index with 0 by lia.
              apply insert_capacity_zero with (e := e); auto.
           ++ destruct (insert_full can_alloc can_alloc_sound h v e (x0 :: xs)
                          index value Hvec ltac:(done) Hin Hg)
                as (h' & Hrun & Hvec' & Hpres).
              left. do 4 eexists.
              split; [exact Hrun|]. split; [exact Hvec'|]. split; [exact Hpres|].
              split; [right; apply fresh_addr_None|].
              rewrite Hlen, length_replicate. simpl. lia.
        -- right. left. exists NoMemory. eapply insert_refused; eauto.
      * destruct (insert_room can_alloc h v e xs y junk index value Hvec Hin)
          as (h' & Hrun & Hvec' & Hpres).
        left. do 4 eexists.
        split; [exact Hrun|]. split; [exact Hvec'|]. split; [exact Hpres|].
        split; [by left|]. rewrite Hlen. simpl. lia.
    + right. left. eexists.
      eapply insert_out_of_range; [apply Hvec|lia].
  - destruct (decide (0 <= index < Z.of_nat (length xs))) as [Hin|Hout].
    + destruct (removeVector_spec h v e xs junk index Hvec Hin)
        as (h' & stale & Hrun & Hvec' & Hpres).
      left. do 4 eexists.
      split; [exact Hrun|]. split; [exact Hvec'|]. split; [exact Hpres|].
      split; [by left|].
      rewrite length_delete
        by (apply lookup_lt_is_Some_2; lia).
      simpl. lia.
    + right. left. eexists.
      eapply removeVector_out_of_range; [apply Hvec|lia].
  - destruct (clearVector_spec h v e xs junk Hvec) as (h' & Hrun & Hvec' & Hpres).
    left. do 4 eexists.
    split; [exact Hrun|]. split; [exact Hvec'|]. split; [exact Hpres|].
    split; [by left|]. rewrite length_app, length_fmap. simpl. lia.
Qed.

(** A sequence of mutating calls on a vector leaves every block that is
    neither its record nor its buffer as it was, in whatever way it ends. *)
Lemma mutate_all_frame ms : forall h v e xs junk,
  vec_at h v e xs junk ->
  forall h2, final_heap (mutate_all can_alloc v ms h) = Some h2 ->
  forall l b, l <> v -> l <> e -> h !! l = Some b -> h2 !! l = Some b.
Proof.
  induction ms as [|m ms IH]; intros h v e xs junk Hvec h2 Hfin l b Hlv Hle Hl.
  - simpl in Hfin. injection Hfin as <-. exact Hl.
  - simpl in Hfin.
    destruct (mutate_step h v e xs junk m Hvec)
      as [(h' & e' & xs' & junk' & Hrun & Hvec' & Hpres & Hbuf & _)
         |[[c Hrun]|Hrun]].
    + rewrite (bind_Ret _ _ _ _ _ Hrun) in Hfin.
      eapply (IH h' v e' xs' junk' Hvec' h2 Hfin l b Hlv).
      * destruct Hbuf as [->|Hnone]; [exact Hle|]. intros ->. congruence.
      * apply Hpres; assumption.
    + rewrite (bind_Fatal _ _ _ _ _ Hrun) in Hfin.
      injection Hfin as <-. exact Hl.
    + rewrite (bind_Undefined _ _ _ Hrun) in Hfin. discriminate.
Qed.

(** Along a sequence of mutating calls that returns, the vector stays a
    vector and its capacity does not decrease. *)
Lemma mutate_all_capacity ms : forall h v e xs junk h2,
  vec_at h v e xs junk ->
  mutate_all can_alloc v ms h = Ret tt h2 ->
  exists e2 xs2 junk2,
    vec_at h2 v e2 xs2 junk2 /\
    (length xs + length junk <= length xs2 + length junk2)%nat.
Proof.
  induction ms as [|m ms IH]; intros h v e xs junk h2 Hvec Hrun2.
  - simpl in Hrun2. injection Hrun2 as <-. exists e, xs, junk. split; [done|lia].
  - simpl in Hrun2.
    destruct (mutate_step h v e xs junk m Hvec)
      as [(h' & e' & xs' & junk' & Hrun & Hvec' & _ & _ & Hcap)
         |[[c Hrun]|Hrun]].
    + rewrite (bind_Ret _ _ _ _ _ Hrun) in Hrun2.
      destruct (IH _ _ _ _ _ _ Hvec' Hrun2) as (e2 & xs2 & junk2 & Hvec2 & Hcap2).
      exists e2, xs2, junk2. split; [done|lia].
    + rewrite (bind_Fatal _ _ _ _ _ Hrun) in Hrun2. discriminate.
    + rewrite (bind_Undefined _ _ _ Hrun) in Hrun2. discriminate.
Qed.

(** When a doubled capacity leaves the range of [int], the request is not
    a slot count and [addVector] halts in the allocator. *)
Lemma addVector_beyond_int h v e xs value :
  vec_at h v e xs [] ->
  Int.INT_MAX < 2 * Z.of_nat (length xs) ->
  addVector can_alloc v value h = Fatal NoMemory h.
Proof.
  intros Hvec Hbig. eapply addVector_refused; [exact Hvec|].
  destruct (can_alloc (Int.mul (Z.of_nat (length xs)) 2)) eqn:Hg; [|reflexivity].
  apply can_alloc_sound in Hg.
  pose proof (wrap_overflow (Z.of_nat (length xs) * 2)) as Hneg.
  destruct Hvec as [_ _ _ Hfit]. simpl in Hfit.
  unfold Int.mul, Int.INT_MAX in *. lia.
Qed.

Lemma independent_sym h a b : independent h a b -> independent h b a.
Proof.
  intros (ea & xsa & ja & eb & xsb & jb & Ha & Hb & H1 & H2 & H3 & H4).
  exists eb, xsb, jb, ea, xsa, ja.
  split; [exact Hb|]. split; [exact Ha|]. auto.
Qed.

(** A call on one of two independent vectors leaves them independent and
    the other one as it was. *)
Lemma independent_step h a b m h' eb xsb jb :
  independent h a b -> vec_at h b eb xsb jb ->
  mutate can_alloc a m h = Ret tt h' ->
  independent h' a b /\ vec_at h' b eb xsb jb.
Proof.
  intros (ea & xsa & ja & eb0 & xsb0 & jb0 & Ha & Hb0 & H1 & H2 & H3 & H4) Hb Hrun.
  assert (eb0 = eb) as -> by (destruct Hb, Hb0; congruence).
  destruct (mutate_step h a ea xsa ja m Ha)
    as [(h1 & ea' & xsa' & ja' & Hrun1 & Ha' & Hpres & Hbuf & _)
       |[[c Hrun1]|Hrun1]]; rewrite Hrun1 in Hrun; try discriminate.
  injection Hrun as <-.
  assert (Hb' : vec_at h1 b eb xsb jb).
  { destruct Hb as [Hnn Hv He Hfit]. split; auto; apply Hpres; auto. }
  split; [|exact Hb'].
  exists ea', xsa', ja', eb, xsb, jb.
  split; [exact Ha'|]. split; [exact Hb'|]. split; [exact H1|]. split; [exact H2|].
  destruct Hbuf as [->|Hnone]; [auto|].
  destruct Hb as [_ Hv He _]. split; intros ->; congruence.
Qed.

(** Any interleaving of calls on two independent vectors that returns
    leaves them independent. *)
Lemma mutate_either_independent steps : forall h a b h',
  independent h a b ->
  mutate_either can_alloc a b steps h = Ret tt h' ->
  independent h' a b.
Proof.
  induction steps as [|[on_second m] steps IH]; intros h a b h' Hind Hrun.
  - simpl in Hrun. injection Hrun as <-. exact Hind.
  - simpl in Hrun. unfold mbind, M_bind in Hrun.
    destruct (mutate can_alloc (if on_second then b else a) m h)
      as [[] h1| |] eqn:Hstep; try discriminate.
    apply (IH h1 a b h'); [|exact Hrun].
    destruct on_second.
    + apply independent_sym.
      pose proof (independent_sym _ _ _ Hind) as Hind'.
      destruct Hind as (ea & xsa & ja & _ & _ & _ & Ha & _).
      eapply independent_step; [exact Hind'|exact Ha|exact Hstep].
    + pose proof Hind as (ea & xsa & ja & eb & xsb & jb & Ha & Hb & Hd).
      eapply independent_step; [exact Hind|exact Hb|exact Hstep].
Qed.

(** Calls on one of two independent vectors do not change what the other
    one shows, in whatever way they end. *)
Lemma independent_frame h a b eb xsb jb ms h2 :
  independent h a b -> vec_at h b eb xsb jb ->
  final_heap (mutate_all can_alloc a ms h) = Some h2 ->
  vec_at h2 b eb xsb jb.
Proof.
  intros (ea & xsa & ja & eb0 & xsb0 & jb0 & Ha & Hb0 & H1 & H2 & H3 & H4) Hb Hfin.
  assert (eb0 = eb) as -> by (destruct Hb, Hb0; congruence).
  destruct Hb as [Hnn Hv He Hfit]. split; auto.
  - eapply (mutate_all_frame ms h a ea); eauto.
  - eapply (mutate_all_frame ms h a ea); eauto.
Qed.

End Sequences.

Section Claims.

Variable can_alloc : Z -> bool.
Hypothesis can_alloc_sound :
  forall n, can_alloc n = true -> 0 <= n <= Int.INT_MAX.

(** *** Appending a sequence *)

(** Appending the values [zs] to a vector whose capacity is the smallest
    [INITIAL_CAPACITY * 2 ^ j] that holds its elements keeps it so. *)
Lemma add_all_spec zs : forall h v e ys junk j,
  vec_at h v e ys junk -> 0 <= j ->
  Z.of_nat (length ys + length junk) = INITIAL_CAPACITY * 2 ^ j ->
  (j = 0 \/ INITIAL_CAPACITY * 2 ^ j < 2 * Z.of_nat (length ys)) ->
  (forall j', 0 <= j' ->
     INITIAL_CAPACITY * 2 ^ j' < 2 * Z.of_nat (length ys + length zs) ->
     can_alloc (INITIAL_CAPACITY * 2 ^ j') = true) ->
  exists h' e' junk' j',
    add_all can_alloc v zs h = Ret tt h' /\
    vec_at h' v e' (ys ++ zs) junk' /\
    0 <= j' /\
    Z.of_nat (length (ys ++ zs) + length junk') = INITIAL_CAPACITY * 2 ^ j' /\
    (j' = 0 \/ INITIAL_CAPACITY * 2 ^ j' < 2 * Z.of_nat (length (ys ++ zs))).
Proof.
  unfold INITIAL_CAPACITY.
  induction zs as [|z zs IH]; intros h v e ys junk j Hvec Hj Hcap Hmin Hgrant.
  - exists h, e, junk, j. rewrite app_nil_r. simpl. auto.
  - simpl add_all. destruct junk as [|y junk].
    + simpl length in Hcap. rewrite Nat.add_0_r in Hcap.
      assert (Hpow : 0 < 2 ^ j) by (apply Z.pow_pos_nonneg; lia).
      assert (Hnext : 10 * 2 ^ (j + 1) = 2 * Z.of_nat (length ys)).
      { rewrite Z.pow_add_r by lia. lia. }
      assert (Hg : can_alloc (10 * 2 ^ (j + 1)) = true).
      { apply Hgrant; [lia|]. rewrite Hnext, length_cons. lia. }
      assert (Hreq : Int.mul (Z.of_nat (length ys)) 2 = 10 * 2 ^ (j + 1)).
      { unfold Int.mul. rewrite wrap_small; [lia|].
        apply can_alloc_sound in Hg.
        unfold Int.in_range, Int.INT_MIN, Int.INT_MAX in *. lia. }
      destruct (addVector_full can_alloc can_alloc_sound h v e ys z Hvec)
        as (h1 & Hrun & Hvec1 & _).
      { destruct ys; [simpl in Hcap; lia|done]. }
      { rewrite Hreq. exact Hg. }
      destruct (IH h1 v (fresh_addr h) (ys ++ [z])
                  (replicate (length ys - 1) None) (j + 1) Hvec1)
        as (h' & e' & junk' & j' & Hrun' & Hres).
      * lia.
      * rewrite length_app, length_replicate. simpl. lia.
      * right. rewrite length_app. simpl. lia.
      * intros j' Hj' Hlt. apply Hgrant; [exact Hj'|].
        rewrite length_app in Hlt. simpl in *. lia.
      * exists h', e', junk', j'. rewrite (bind_Ret _ _ _ _ _ Hrun).
        rewrite <- app_assoc in Hres. simpl in Hres. split; [exact Hrun'|exact Hres].
    + destruct (addVector_room can_alloc h v e ys y junk z Hvec)
        as (h1 & Hrun & Hvec1 & _).
      destruct (IH h1 v e (ys ++ [z]) junk j Hvec1)
        as (h' & e' & junk' & j' & Hrun' & Hres).
      * lia.
      * rewrite length_app. simpl in *. lia.
      * destruct Hmin as [->|Hlt]; [by left|right].
        rewrite length_app. simpl. lia.
      * intros j' Hj' Hlt. apply Hgrant; [exact Hj'|].
        rewrite length_app in Hlt. simpl in *. lia.
      * exists h', e', junk', j'. rewrite (bind_Ret _ _ _ _ _ Hrun).
        rewrite <- app_assoc in Hres. simpl in Hres. split; [exact Hrun'|exact Hres].
Qed.

(** C2: after a sequence of more than [INITIAL_CAPACITY] appends to a vector
    that [newVector] just created, [sizeVector] returns the number of
    appended values, [getVector] returns the i-th appended value at every
    index i, and the capacity is the smallest power-of-two multiple of the
    initial capacity that is at least that number -- the allocator granting
    the buffers of these capacities. *)
Theorem append_sequence h (xs : list ptr) :
  INITIAL_CAPACITY < Z.of_nat (length xs) ->
  (forall j, 0 <= j ->
     INITIAL_CAPACITY * 2 ^ j < 2 * Z.of_nat (length xs) ->
     can_alloc (INITIAL_CAPACITY * 2 ^ j) = true) ->
  exists v h1 h2 c,
    newVector can_alloc h = Ret v h1 /\
    add_all can_alloc v xs h1 = Ret tt h2 /\
    sizeVector v h2 = Ret (Z.of_nat (length xs)) h2 /\
    (forall (i : nat) x, xs !! i = Some x ->
       getVector v (Z.of_nat i) h2 = Ret x h2) /\
    capacity_of v h2 = Ret c h2 /\
    least_pow2_multiple c (Z.of_nat (length xs)).
Proof.
  intros Hmany Hgrant.
  destruct (newVector_spec can_alloc h) as (v & e & h1 & Hnew & _ & _ & Hvec & _).
  { replace INITIAL_CAPACITY with (INITIAL_CAPACITY * 2 ^ 0) by reflexivity.
    apply Hgrant; [lia|]. unfold INITIAL_CAPACITY in *. lia. }
  destruct (add_all_spec xs h1 v e [] _ 0 Hvec)
    as (h2 & e2 & junk2 & j & Hrun & Hvec2 & Hj & Hcap & Hmin).
  { lia. }
  { reflexivity. }
  { by left. }
  { exact Hgrant. }
  simpl app in *.
  destruct (vec_at_observed _ _ _ _ _ Hvec2) as [Hsize Hget].
  exists v, h1, h2, (Z.of_nat (length xs + length junk2)).
  split; [exact Hnew|]. split; [exact Hrun|]. split; [exact Hsize|].
  split; [exact Hget|]. split.
  { eapply capacity_of_at. apply Hvec2. }
  rewrite Hcap. split; [|split].
  - exists j. auto.
  - rewrite <- Hcap. lia.
  - intros j2 Hj2 Hle. destruct Hmin as [->|Hlt].
    + assert (0 < 2 ^ j2) by (apply Z.pow_pos_nonneg; lia).
      unfold INITIAL_CAPACITY. simpl. lia.
    + unfold INITIAL_CAPACITY in *.
      assert (Hpow : 2 ^ j < 2 ^ (j2 + 1)).
      { rewrite Z.pow_add_r by lia. lia. }
      apply Z.pow_lt_mono_r_iff in Hpow; [|lia|lia].
      assert (2 ^ j <= 2 ^ j2) by (apply Z.pow_le_mono_r; lia).
      lia.
Qed.

(** *** Insertion at the end, and insertion undone by removal *)

Lemma tails_agree h v e c k s value :
  h !! v = Some (VectorCDT e c k) ->
  h !! e = Some (ArrayBlock s) ->
  (e0 ← elements_of v;
   for_each (downfrom c c) (fun i => x ← load e0 (i - 1); store e0 i x);;
   store e0 c value;;
   c' ← count_of v;
   set_count v (Int.add c' 1)) h
  = (e0 ← elements_of v; c' ← count_of v;
     set_count v (Int.add c' 1);; store e0 c' value) h.
Proof.
  intros Hv He.
  assert (Hve : v <> e) by (intros ->; congruence).
  unfold downfrom. rewrite seqZ_nil by lia. simpl for_each.
  destruct (decide (0 <= c < Z.of_nat (length s))) as [Hin|Hout].
  - etransitivity.
    { run_field elements_of_at. run_by ltac:(reflexivity).
      run_by ltac:(eapply store_at; [exact He|exact Hin]).
      run_by ltac:(eapply count_of_at; heap_lookup).
      eapply set_count_at. heap_lookup. }
    symmetry.
    run_field elements_of_at. run_field count_of_at.
    run_by ltac:(eapply set_count_at; heap_lookup).
    erewrite store_at; [|heap_lookup|exact Hin].
    f_equal. apply insert_insert_ne. congruence.
  - etransitivity.
    { run_field elements_of_at. run_by ltac:(reflexivity).
      eapply bind_Undefined. eapply store_outside; [exact He|exact Hout]. }
    symmetry.
    run_field elements_of_at. run_field count_of_at.
    run_by ltac:(eapply set_count_at; heap_lookup).
    eapply store_outside; [heap_lookup|exact Hout].
Qed.

(** X19: inserting at index [size] is appending: on every vector, [insert]
    at the index that equals the size and [addVector] end in the same way
    (returning, halting in the allocator, or writing outside a buffer of
    capacity 0), in the same heap. *)
Lemma insert_at_size_is_append h v e xs junk value :
  vec_at h v e xs junk ->
  insert can_alloc v (Z.of_nat (length xs)) value h
  = addVector can_alloc v value h.
Proof.
  intros Hvec. destruct junk as [|y junk].
  - destruct (can_alloc (Int.mul (Z.of_nat (length xs)) 2)) eqn:Hg.
    + destruct (expandCapacity_spec can_alloc can_alloc_sound h v e xs [] Hvec)
        as (h1 & Hexp & [_ Hv1 He1 _] & _).
      { simpl. rewrite Nat.add_0_r. exact Hg. }
      destruct Hvec as [Hnn Hv He Hfit]. simpl length in Hv.
      rewrite Nat.add_0_r in Hv.
      unfold insert.
      run_field count_of_at. rewrite decide_False by lia.
      run_by ltac:(reflexivity).
      run_field capacity_of_at. rewrite decide_True by done.
      run_by ltac:(exact Hexp).
      erewrite tails_agree by eassumption.
      symmetry. unfold addVector.
      run_field count_of_at. run_field capacity_of_at.
      rewrite decide_True by done.
      run_by ltac:(exact Hexp).
      reflexivity.
    + erewrite insert_refused, addVector_refused; eauto. lia.
  - destruct Hvec as [Hnn Hv He Hfit].
    unfold insert.
    run_field count_of_at. rewrite decide_False by lia.
    run_by ltac:(reflexivity).
    run_field capacity_of_at. rewrite decide_False by (simpl; lia).
    run_by ltac:(reflexivity).
    erewrite tails_agree by eassumption.
    symmetry. unfold addVector.
    run_field count_of_at. run_field capacity_of_at.
    rewrite decide_False by (simpl; lia).
    run_by ltac:(reflexivity).
    reflexivity.
Qed.

(** On a vector that has a free slot, or that is full, not empty and whose
    doubled buffer the allocator grants, [insert] places the value at the
    index, in front of the elements that were at and behind it. *)
Lemma insert_spec h v e xs junk index value :
  vec_at h v e xs junk ->
  0 <= index <= Z.of_nat (length xs) ->
  junk <> [] \/
    (xs <> [] /\ can_alloc (Int.mul (Z.of_nat (length xs)) 2) = true) ->
  exists h' e' junk',
    insert can_alloc v index value h = Ret tt h' /\
    vec_at h' v e'
           (take (Z.to_nat index) xs ++ value :: drop (Z.to_nat index) xs)
           junk' /\
    preserved h h' v e.
Proof.
  intros Hvec Hin Hroom. destruct junk as [|y junk].
  - destruct Hroom as [?|[Hne Hg]]; [done|].
    destruct (insert_full can_alloc can_alloc_sound h v e xs index value
                Hvec Hne Hin Hg) as (h' & Hrun & Hvec' & Hpres).
    eauto 10.
  - destruct (insert_room can_alloc h v e xs y junk index value Hvec Hin)
      as (h' & Hrun & Hvec' & Hpres).
    eauto 10.
Qed.

(** Under the same conditions, removing at the index just inserted at
    gives back the elements the vector had. *)
Lemma insert_then_remove h v e xs junk index value :
  vec_at h v e xs junk ->
  0 <= index <= Z.of_nat (length xs) ->
  junk <> [] \/
    (xs <> [] /\ can_alloc (Int.mul (Z.of_nat (length xs)) 2) = true) ->
  exists h1 h2 e' junk',
    insert can_alloc v index value h = Ret tt h1 /\
    removeVector v index h1 = Ret tt h2 /\
    vec_at h2 v e' xs junk'.
Proof.
  intros Hvec Hin Hroom.
  destruct (insert_spec h v e xs junk index value Hvec Hin Hroom)
    as (h1 & e' & junk' & Hrun & Hvec1 & _).
  destruct (removeVector_spec h1 v e' _ junk' index Hvec1)
    as (h2 & stale & Hrun2 & Hvec2 & _).
  { rewrite length_app. simpl. rewrite length_take, length_drop. lia. }
  exists h1, h2, e', (stale :: junk').
  split; [exact Hrun|]. split; [exact Hrun2|].
  replace (Z.to_nat index) with (length (take (Z.to_nat index) xs)) in Hvec2 at 1
    by (rewrite length_take; lia).
  rewrite delete_middle, take_drop in Hvec2. exact Hvec2.
Qed.

(** *** Conversion from and to arrays *)

(** C5: an array of [n] element references that is turned into a vector
    and back gives a newly allocated array of [n + 1] slots, the [n]
    references in order and [NULL] behind them -- the allocator granting
    the buffer of the vector and the array. *)
Theorem array_round_trip h array (items : list ptr) :
  array <> NULL ->
  h !! array = Some (ArrayBlock (Some <$> items)) ->
  can_alloc (Z.of_nat (length items)) = true ->
  can_alloc (Z.of_nat (length items) + 1) = true ->
  exists v h1 a h2,
    arrayToVector can_alloc array (Z.of_nat (length items)) h = Ret v h1 /\
    vectorToArray can_alloc v h1 = Ret a h2 /\
    a <> NULL /\ h1 !! a = None /\
    h2 !! a = Some (ArrayBlock ((Some <$> items) ++ [Some NULL])) /\
    h2 !! array = Some (ArrayBlock (Some <$> items)).
Proof.
  intros Hnn Harr Hg Hg1.
  destruct (arrayToVector_spec can_alloc can_alloc_sound h array items [])
    as (v & e & h1 & Hrun & _ & _ & Hvec & Hext); [exact Hnn| |exact Hg|].
  { rewrite app_nil_r. exact Harr. }
  assert (Hsucc : Int.add (Z.of_nat (length items)) 1 = Z.of_nat (length items) + 1).
  { apply can_alloc_sound in Hg1. apply int_succ_small. lia. }
  exists v, h1, (fresh_addr h1). eexists.
  split; [exact Hrun|]. split.
  { eapply vectorToArray_spec; [exact can_alloc_sound|exact Hvec|].
    rewrite Hsucc. exact Hg1. }
  split; [apply fresh_addr_not_NULL|]. split; [apply fresh_addr_None|].
  split; [apply lookup_insert_eq|].
  apply Hext in Harr.
  rewrite lookup_insert_ne; [exact Harr|]. eapply fresh_addr_ne. exact Harr.
Qed.

(** C9: given no array, [arrayToVector] returns no vector, and given no
    vector, [vectorToArray] returns no array; both return, with the heap
    as it was, and neither calls the error reporter. *)
Theorem conversions_of_null n h :
  arrayToVector can_alloc NULL n h = Ret NULL h /\
  vectorToArray can_alloc NULL h = Ret NULL h.
Proof. split; [apply arrayToVector_null|apply vectorToArray_null]. Qed.

(** *** Indices out of range *)

(** C6: with an index out of range, [getVector], [setVector], [insert] and
    [removeVector] halt in the error reporter, and the heap they halt in
    is the heap they were called in: count, capacity and elements are as
    they were. *)
Theorem out_of_range_halts_unchanged h v e c k index value :
  h !! v = Some (VectorCDT e c k) ->
  (index < 0 \/ index >= c ->
     (exists msg, getVector v index h = Fatal (Error msg) h) /\
     (exists msg, setVector v index value h = Fatal (Error msg) h) /\
     (exists msg, removeVector v index h = Fatal (Error msg) h)) /\
  (index < 0 \/ index > c ->
     exists msg, insert can_alloc v index value h = Fatal (Error msg) h).
Proof.
  intros Hv. split.
  - intros Hout. split; [|split]; eexists.
    + eapply getVector_out_of_range; eauto.
    + eapply setVector_out_of_range; eauto.
    + eapply removeVector_out_of_range; eauto.
  - intros Hout. eexists. eapply insert_out_of_range; eauto.
Qed.

(** C10: with an index outside [0, count), [setVector] reports the message
    of [getVector], "get: Index value out of range". *)
Theorem setVector_reports_get h v e c k index value :
  h !! v = Some (VectorCDT e c k) ->
  index < 0 \/ index >= c ->
  setVector v index value h
  = Fatal (Error "get: Index value out of range") h.
Proof. apply setVector_out_of_range. Qed.

(** *** Clones and iterators *)

Lemma vec_at_transport h h2 v e xs junk :
  vec_at h v e xs junk ->
  (forall l b, l = v \/ l = e -> h !! l = Some b -> h2 !! l = Some b) ->
  vec_at h2 v e xs junk.
Proof.
  intros [Hnn Hv He Hfit] Hsame. split; auto.
Qed.

End Claims.

(** ** The vector made from an empty array *)

Lemma plenty_sound n : plenty n = true -> 0 <= n <= Int.INT_MAX.
Proof. unfold plenty. intros H. apply bool_decide_eq_true in H. exact H. Qed.

(** C1: [arrayToVector] called with an empty array and [n = 0] returns a
    vector of capacity 0, and [expandCapacity] leaves that capacity at 0. *)
Theorem empty_array_vector_capacity_zero :
  returned ((v ← arrayToVector plenty 1 0; capacity_of v) empty_array_heap)
  = Some 0 /\
  returned ((v ← arrayToVector plenty 1 0;
             expandCapacity plenty v;; capacity_of v) empty_array_heap)
  = Some 0.
Proof. split; vm_compute; reflexivity. Qed.

(** C3: on the vector made from an empty array, [insert] at index 0, which
    is its size, writes outside the buffer, and so does [addVector]. *)
Theorem empty_array_vector_insert_undefined :
  returned ((v ← arrayToVector plenty 1 0; sizeVector v) empty_array_heap)
  = Some 0 /\
  (v ← arrayToVector plenty 1 0; insert plenty v 0 7) empty_array_heap
  = Undefined /\
  (v ← arrayToVector plenty 1 0; addVector plenty v 7) empty_array_heap
  = Undefined.
Proof. repeat split; vm_compute; reflexivity. Qed.

(** C4: on the vector made from an empty array, [insert] at index 0
    followed by [removeVector] at index 0 does not give back the empty
    vector: the insertion already writes outside the buffer. *)
Theorem empty_array_vector_insert_remove_undefined :
  (v ← arrayToVector plenty 1 0;
   insert plenty v 0 7;; removeVector v 0;; sizeVector v) empty_array_heap
  = Undefined.
Proof. vm_compute. reflexivity. Qed.

(** C7: the clone of the vector made from an empty array has capacity 0 as
    well; [addVector] on the clone, and [addVector] on the original beside
    its clone, write outside a buffer, so nothing is left to observe of the
    other vector. *)
Theorem empty_array_vector_clone_append_undefined :
  returned ((v ← arrayToVector plenty 1 0; c ← cloneVector plenty v;
             capacity_of c) empty_array_heap)
  = Some 0 /\
  (v ← arrayToVector plenty 1 0; c ← cloneVector plenty v;
   addVector plenty c 7;; sizeVector v) empty_array_heap
  = Undefined /\
  (v ← arrayToVector plenty 1 0; c ← cloneVector plenty v;
   addVector plenty v 7;; sizeVector c) empty_array_heap
  = Undefined.
Proof. repeat split; vm_compute; reflexivity. Qed.

(** C8: the iterator made for the vector made from an empty array yields
    nothing when it is driven at once; after an [addVector] on the vector,
    which writes outside the buffer, nothing is left to drive. *)
Theorem empty_array_vector_iterator_append_undefined :
  returned ((v ← arrayToVector plenty 1 0; it ← newVectorIterator v;
             drive 1 it) empty_array_heap)
  = Some [] /\
  (v ← arrayToVector plenty 1 0; it ← newVectorIterator v;
   addVector plenty v 7;; drive 1 it) empty_array_heap
  = Undefined.
Proof. split; vm_compute; reflexivity. Qed.

(** ** The theorems at concrete heaps *)

(** The allocator [plenty] grants every buffer that a sequence of at most
    [INITIAL_CAPACITY * 2 ^ 27] appends to a new vector asks for: these are
    the sequences whose doubled capacities stay in the range of [int]. *)
Lemma plenty_grants_growth (n : Z) :
  n <= INITIAL_CAPACITY * 2 ^ 27 ->
  forall j, 0 <= j -> INITIAL_CAPACITY * 2 ^ j < 2 * n ->
    plenty (INITIAL_CAPACITY * 2 ^ j) = true.
Proof.
  unfold INITIAL_CAPACITY. intros Hn j Hj Hlt.
  assert (Hpos : 0 < 2 ^ j) by (apply Z.pow_pos_nonneg; lia).
  assert (Hpow : 2 ^ j < 2 ^ 28).
  { change (2 ^ 28) with 268435456. change (2 ^ 27) with 134217728 in Hn. lia. }
  apply Z.pow_lt_mono_r_iff in Hpow; [|lia|lia].
  assert (Hle : 2 ^ j <= 2 ^ 27) by (apply Z.pow_le_mono_r; lia).
  change (2 ^ 27) with 134217728 in Hle.
  unfold plenty. apply bool_decide_eq_true. unfold Int.INT_MAX. lia.
Qed.

Lemma small_vector_at : vec_at small_vector_heap 1 2 [7; 8] [None].
Proof.
  split; [discriminate|reflexivity|reflexivity|]. vm_compute. discriminate.
Qed.

Lemma append_sequence_witness :
  INITIAL_CAPACITY < Z.of_nat (length [1; 2; 3; 4; 5; 6; 7; 8; 9; 10; 11]) /\
  exists v h1 h2 c,
    newVector plenty ∅ = Ret v h1 /\
    add_all plenty v [1; 2; 3; 4; 5; 6; 7; 8; 9; 10; 11] h1 = Ret tt h2 /\
    sizeVector v h2 = Ret 11 h2 /\
    (forall (i : nat) x, [1; 2; 3; 4; 5; 6; 7; 8; 9; 10; 11] !! i = Some x ->
       getVector v (Z.of_nat i) h2 = Ret x h2) /\
    capacity_of v h2 = Ret c h2 /\
    least_pow2_multiple c 11.
Proof.
  split; [reflexivity|].
  apply (append_sequence plenty plenty_sound ∅ [1; 2; 3; 4; 5; 6; 7; 8; 9; 10; 11]).
  - reflexivity.
  - apply plenty_grants_growth. vm_compute. discriminate.
Defined.

Lemma array_round_trip_witness :
  three_items_heap !! 100 = Some (ArrayBlock (Some <$> [7; 8; 9])) /\
  exists v h1 a h2,
    arrayToVector plenty 100 3 three_items_heap = Ret v h1 /\
    vectorToArray plenty v h1 = Ret a h2 /\
    a <> NULL /\ h1 !! a = None /\
    h2 !! a = Some (ArrayBlock ((Some <$> [7; 8; 9]) ++ [Some NULL])) /\
    h2 !! 100 = Some (ArrayBlock (Some <$> [7; 8; 9])).
Proof.
  split; [reflexivity|].
  apply (array_round_trip plenty plenty_sound three_items_heap 100 [7; 8; 9]).
  - discriminate.
  - reflexivity.
  - reflexivity.
  - reflexivity.
Defined.

Lemma out_of_range_halts_unchanged_witness :
  small_vector_heap !! 1 = Some (VectorCDT 2 2 3) /\
  (exists msg, getVector 1 2 small_vector_heap = Fatal (Error msg) small_vector_heap) /\
  (exists msg, setVector 1 2 9 small_vector_heap = Fatal (Error msg) small_vector_heap) /\
  (exists msg, removeVector 1 2 small_vector_heap = Fatal (Error msg) small_vector_heap) /\
  (exists msg, insert plenty 1 (-1) 9 small_vector_heap
               = Fatal (Error msg) small_vector_heap).
Proof.
  split; [reflexivity|].
  destruct (out_of_range_halts_unchanged plenty small_vector_heap 1 2 2 3 2 9
              eq_refl) as [Hget _].
  destruct (out_of_range_halts_unchanged plenty small_vector_heap 1 2 2 3 (-1) 9
              eq_refl) as [_ Hins].
  destruct Hget as (H1 & H2 & H3); [lia|].
  repeat split; try assumption.
  apply Hins. lia.
Defined.

Lemma setVector_reports_get_witness :
  small_vector_heap !! 1 = Some (VectorCDT 2 2 3) /\
  setVector 1 5 9 small_vector_heap
  = Fatal (Error "get: Index value out of range") small_vector_heap.
Proof.
  split; [reflexivity|].
  apply (setVector_reports_get small_vector_heap 1 2 2 3 5 9); [reflexivity|lia].
Defined.

(** * Further properties of vector.c *)

Ltac heap_look :=
  repeat first
    [ rewrite lookup_insert_eq
    | rewrite lookup_insert_ne by congruence
    | rewrite lookup_delete_eq
    | rewrite lookup_delete_ne by congruence ];
  try eassumption; try reflexivity.

Lemma nothing_sound n : nothing n = true -> 0 <= n <= Int.INT_MAX.
Proof. discriminate. Qed.

Lemma full_vector_at : vec_at full_vector_heap 1 2 [7; 8] [].
Proof.
  split; [discriminate|reflexivity|reflexivity|]. vm_compute. discriminate.
Qed.

(** ** Release *)



(** ** Clearing *)

(** X2: [clearVector] sets the count to 0 and leaves everything else: the
    vector is then empty for [isEmptyVector] and [sizeVector], it keeps its
    buffer and its capacity, and [getVector] halts in the error reporter at
    every index. *)
Theorem clearVector_empties h v e c k :
  h !! v = Some (VectorCDT e c k) ->
  clearVector v h = Ret tt (<[v := VectorCDT e 0 k]> h) /\
  isEmptyVector v (<[v := VectorCDT e 0 k]> h)
    = Ret true (<[v := VectorCDT e 0 k]> h) /\
  sizeVector v (<[v := VectorCDT e 0 k]> h)
    = Ret 0 (<[v := VectorCDT e 0 k]> h) /\
  forall index,
    getVector v index (<[v := VectorCDT e 0 k]> h)
    = Fatal (Error "get: Index value out of range") (<[v := VectorCDT e 0 k]> h).
Proof.
  intros Hv. split; [|split; [|split]].
  - unfold clearVector. eapply set_count_at, Hv.
  - unfold isEmptyVector. run_by ltac:(eapply count_of_at; apply lookup_insert_eq).
    reflexivity.
  - unfold sizeVector. eapply count_of_at. apply lookup_insert_eq.
  - intros index. eapply getVector_out_of_range; [apply lookup_insert_eq|lia].
Qed.

Lemma clearVector_empties_witness :
  small_vector_heap !! 1 = Some (VectorCDT 2 2 3) /\
  (clearVector 1 small_vector_heap
     = Ret tt (<[1 := VectorCDT 2 0 3]> small_vector_heap) /\
   isEmptyVector 1 (<[1 := VectorCDT 2 0 3]> small_vector_heap)
     = Ret true (<[1 := VectorCDT 2 0 3]> small_vector_heap) /\
   sizeVector 1 (<[1 := VectorCDT 2 0 3]> small_vector_heap)
     = Ret 0 (<[1 := VectorCDT 2 0 3]> small_vector_heap) /\
   forall index,
     getVector 1 index (<[1 := VectorCDT 2 0 3]> small_vector_heap)
     = Fatal (Error "get: Index value out of range")
             (<[1 := VectorCDT 2 0 3]> small_vector_heap)).
Proof.
  split; [reflexivity|].
  apply (clearVector_empties small_vector_heap 1 2 2 3). reflexivity.
Defined.

(** X3: on a vector of capacity at least 1, [clearVector] followed by
    [addVector] returns whatever the allocator would grant: the value goes
    into the buffer the vector had, the capacity is the one it had, and the
    vector holds the one value. *)
Theorem clear_then_add_reuses_buffer can_alloc h v e xs junk value :
  vec_at h v e xs junk ->
  (0 < length xs + length junk)%nat ->
  exists h' junk',
    (clearVector v;; addVector can_alloc v value) h = Ret tt h' /\
    vec_at h' v e [value] junk' /\
    (1 + length junk' = length xs + length junk)%nat /\
    preserved h h' v e.
Proof.
  intros Hvec Hcap.
  destruct (clearVector_spec h v e xs junk Hvec) as (h1 & Hclear & Hvec1 & Hpres1).
  destruct ((Some <$> xs) ++ junk) as [|y rest] eqn:Hbuf.
  { apply (f_equal length) in Hbuf. rewrite length_app, length_fmap in Hbuf.
    simpl in Hbuf. lia. }
  destruct (addVector_room can_alloc h1 v e [] y rest value Hvec1)
    as (h' & Hadd & Hvec' & Hpres').
  exists h', rest. split; [|split; [|split]].
  - rewrite (bind_Ret _ _ _ _ _ Hclear). exact Hadd.
  - exact Hvec'.
  - apply (f_equal length) in Hbuf. rewrite length_app, length_fmap in Hbuf.
    simpl in Hbuf. lia.
  - intros l b Hlv Hle Hl. apply Hpres'; auto.
Qed.

Lemma clear_then_add_reuses_buffer_witness :
  vec_at full_vector_heap 1 2 [7; 8] [] /\
  (0 < length [7; 8] + length (@nil (option Z)))%nat /\
  exists h' junk',
    (clearVector 1;; addVector nothing 1 9) full_vector_heap = Ret tt h' /\
    vec_at h' 1 2 [9] junk' /\
    (1 + length junk' = length [7; 8] + length (@nil (option Z)))%nat /\
    preserved full_vector_heap h' 1 2.
Proof.
  split; [exact full_vector_at|]. split; [simpl; lia|].
  apply (clear_then_add_reuses_buffer nothing full_vector_heap 1 2 [7; 8] [] 9).
  - exact full_vector_at.
  - simpl. lia.
Defined.

(** ** Reading and writing a slot *)

(** X4: [setVector] at an index in range returns; [getVector] then returns
    the new value at that index and the old values at the other indices,
    the size is the same, and the vector keeps its buffer. *)
Theorem set_then_get h v e xs junk index value :
  vec_at h v e xs junk ->
  0 <= index < Z.of_nat (length xs) ->
  exists h',
    setVector v index value h = Ret tt h' /\
    getVector v index h' = Ret value h' /\
    sizeVector v h' = Ret (Z.of_nat (length xs)) h' /\
    (forall (j : nat) y, j <> Z.to_nat index -> xs !! j = Some y ->
       getVector v (Z.of_nat j) h' = Ret y h') /\
    elements_of v h' = Ret e h' /\
    preserved h h' v e.
Proof.
  intros Hvec Hin.
  destruct (setVector_spec h v e xs junk index value Hvec Hin)
    as (h' & Hrun & Hvec' & Hpres).
  exists h'. split; [exact Hrun|]. split; [|split; [|split; [|split]]].
  - eapply getVector_spec; [exact Hvec'|lia|].
    apply list_lookup_insert_eq. lia.
  - erewrite sizeVector_spec by exact Hvec'. rewrite length_insert. reflexivity.
  - intros j y Hj Hy. eapply getVector_spec; [exact Hvec'|lia|].
    rewrite Nat2Z.id, list_lookup_insert_ne by auto. exact Hy.
  - eapply elements_of_at. apply Hvec'.
  - exact Hpres.
Qed.

Lemma set_then_get_witness :
  vec_at small_vector_heap 1 2 [7; 8] [None] /\
  0 <= 1 < Z.of_nat (length [7; 8]) /\
  exists h',
    setVector 1 1 9 small_vector_heap = Ret tt h' /\
    getVector 1 1 h' = Ret 9 h' /\
    sizeVector 1 h' = Ret (Z.of_nat (length [7; 8])) h' /\
    (forall (j : nat) y, j <> Z.to_nat 1 -> [7; 8] !! j = Some y ->
       getVector 1 (Z.of_nat j) h' = Ret y h') /\
    elements_of 1 h' = Ret 2 h' /\
    preserved small_vector_heap h' 1 2.
Proof.
  split; [exact small_vector_at|]. split; [simpl; lia|].
  apply (set_then_get small_vector_heap 1 2 [7; 8] [None] 1 9).
  - exact small_vector_at.
  - simpl. lia.
Defined.

(** ** Growth *)

Section Growth.

Variable can_alloc : Z -> bool.
Hypothesis can_alloc_sound :
  forall n, can_alloc n = true -> 0 <= n <= Int.INT_MAX.

(** The heap [expandCapacity] returns in. *)
Lemma expandCapacity_run h v e xs junk :
  vec_at h v e xs junk ->
  can_alloc (Int.mul (Z.of_nat (length xs + length junk)) 2) = true ->
  expandCapacity can_alloc v h
  = Ret tt
      (<[v := VectorCDT (fresh_addr h) (Z.of_nat (length xs))
                        (2 * Z.of_nat (length xs + length junk))]>
         (delete e
            (<[fresh_addr h :=
                 ArrayBlock ((Some <$> xs)
                             ++ replicate (length xs + 2 * length junk) None)]> h))).
Proof.
  intros Hvec Hg. pose proof (vec_at_distinct _ _ _ _ _ Hvec) as Hve.
  destruct Hvec as [Hnn Hv He Hfit].
  assert (Hdbl := granted_double can_alloc can_alloc_sound
                    (Z.of_nat (length xs + length junk)) ltac:(lia) Hg).
  set (a := fresh_addr h).
  assert (Hav : a <> v) by (eapply fresh_addr_ne; exact Hv).
  assert (Hae : a <> e) by (eapply fresh_addr_ne; exact He).
  unfold expandCapacity.
  run_field capacity_of_at.
  run_by ltac:(apply newArray_granted; exact Hg). fold a.
  run_field count_of_at.
  run_field elements_of_at.
  run_by ltac:(eapply copy_loop with (xs := xs) (n := length xs);
               [heap_lookup| heap_lookup | congruence | lia
               | rewrite length_replicate, Hdbl; lia]).
  run_by ltac:(eapply freeBlock_at; heap_lookup).
  run_by ltac:(eapply set_elements_at; heap_lookup).
  erewrite set_capacity_at by heap_look.
  rewrite !insert_insert_eq, Hdbl, firstn_all, drop_replicate.
  replace (Z.to_nat (2 * Z.of_nat (length xs + length junk)) - length xs)%nat
    with (length xs + 2 * length junk)%nat by lia.
  reflexivity.
Qed.

(** X5: [addVector] on a full vector of capacity at least 1, the allocator
    granting the doubled buffer: the elements and the new value are in a
    newly allocated buffer of exactly twice the capacity, the old buffer is
    released, and no other block is allocated, released or changed. *)
Theorem add_to_full_doubles h v e xs value :
  vec_at h v e xs [] -> xs <> [] ->
  can_alloc (Int.mul (Z.of_nat (length xs)) 2) = true ->
  exists h',
    addVector can_alloc v value h = Ret tt h' /\
    h !! fresh_addr h = None /\
    vec_at h' v (fresh_addr h) (xs ++ [value])
           (replicate (length xs - 1) None) /\
    capacity_of v h' = Ret (2 * Z.of_nat (length xs)) h' /\
    h' !! e = None /\
    forall l, l <> v -> l <> e -> l <> fresh_addr h -> h' !! l = h !! l.
Proof.
  intros Hvec Hne Hg.
  assert (Hlen : (0 < length xs)%nat) by (destruct xs; simpl; [done|lia]).
  assert (Hg' : can_alloc (Int.mul (Z.of_nat (length xs + length (@nil (option Z)))) 2)
                = true) by (simpl; rewrite Nat.add_0_r; exact Hg).
  pose proof (expandCapacity_run h v e xs [] Hvec Hg') as Hexp.
  destruct (addVector_full can_alloc can_alloc_sound h v e xs value Hvec Hne Hg)
    as (h' & Hrun & Hvec' & Hpres).
  pose proof (vec_at_distinct _ _ _ _ _ Hvec) as Hve.
  assert (Hav : fresh_addr h <> v) by (eapply fresh_addr_ne; apply Hvec).
  assert (Hae : fresh_addr h <> e) by (eapply fresh_addr_ne; apply Hvec).
  exists h'. split; [exact Hrun|]. split; [apply fresh_addr_None|].
  split; [exact Hvec'|]. split; [|].
  { erewrite capacity_of_at by apply Hvec'.
    rewrite length_app, length_replicate. simpl. do 2 f_equal. lia. }
  (* the heap, step by step *)
  destruct Hvec as [Hnn Hv He Hfit]. simpl length in Hv. rewrite Nat.add_0_r in Hv.
  unfold addVector in Hrun.
  erewrite bind_Ret in Hrun by (eapply count_of_at; exact Hv).
  erewrite bind_Ret in Hrun by (eapply capacity_of_at; exact Hv).
  rewrite decide_True in Hrun by done.
  erewrite bind_Ret in Hrun by exact Hexp.
  erewrite bind_Ret in Hrun by (eapply elements_of_at; apply lookup_insert_eq).
  erewrite bind_Ret in Hrun by (eapply count_of_at; apply lookup_insert_eq).
  erewrite bind_Ret in Hrun by (eapply set_count_at; apply lookup_insert_eq).
  unfold store in Hrun.
  rewrite lookup_insert_ne, insert_insert_eq, lookup_insert_ne,
    lookup_delete_ne, lookup_insert_eq in Hrun by congruence.
  destruct (decide _) in Hrun; [|discriminate].
  injection Hrun as <-.
  split.
  - heap_look.
  - intros l Hlv Hle Hla. heap_look.
Qed.

End Growth.

Lemma add_to_full_doubles_witness :
  vec_at full_vector_heap 1 2 [7; 8] [] /\
  exists h',
    addVector plenty 1 9 full_vector_heap = Ret tt h' /\
    full_vector_heap !! fresh_addr full_vector_heap = None /\
    vec_at h' 1 (fresh_addr full_vector_heap) ([7; 8] ++ [9])
           (replicate (length [7; 8] - 1) None) /\
    capacity_of 1 h' = Ret (2 * Z.of_nat (length [7; 8])) h' /\
    h' !! 2 = None /\
    forall l, l <> 1 -> l <> 2 -> l <> fresh_addr full_vector_heap ->
      h' !! l = full_vector_heap !! l.
Proof.
  split; [exact full_vector_at|].
  apply (add_to_full_doubles plenty plenty_sound full_vector_heap 1 2 [7; 8] 9).
  - exact full_vector_at.
  - discriminate.
  - reflexivity.
Defined.

(** X6: when the vector is full and the allocator refuses the doubled
    buffer, [addVector] and [insert] (at an index in range) halt in the
    allocator before they change anything: the heap is the one they were
    called in. *)
Theorem growth_refused_leaves_heap can_alloc h v e xs value :
  vec_at h v e xs [] ->
  can_alloc (Int.mul (Z.of_nat (length xs)) 2) = false ->
  addVector can_alloc v value h = Fatal NoMemory h /\
  forall index, 0 <= index <= Z.of_nat (length xs) ->
    insert can_alloc v index value h = Fatal NoMemory h.
Proof.
  intros Hvec Hg. split.
  - eapply addVector_refused; eauto.
  - intros index Hin. eapply insert_refused; eauto.
Qed.

Lemma growth_refused_leaves_heap_witness :
  vec_at full_vector_heap 1 2 [7; 8] [] /\
  nothing (Int.mul (Z.of_nat (length [7; 8])) 2) = false /\
  addVector nothing 1 9 full_vector_heap = Fatal NoMemory full_vector_heap /\
  forall index, 0 <= index <= Z.of_nat (length [7; 8]) ->
    insert nothing 1 index 9 full_vector_heap = Fatal NoMemory full_vector_heap.
Proof.
  split; [exact full_vector_at|]. split; [reflexivity|].
  apply (growth_refused_leaves_heap nothing full_vector_heap 1 2 [7; 8] 9).
  - exact full_vector_at.
  - reflexivity.
Defined.

(** ** Insertion and removal *)

Section Shifts.

Variable can_alloc : Z -> bool.
Hypothesis can_alloc_sound :
  forall n, can_alloc n = true -> 0 <= n <= Int.INT_MAX.

(** X7: [insert] at an index in [0, size], on a vector that has a free slot
    or is full, not empty and granted its doubled buffer: afterwards the
    size is one more, [getVector] returns the value at the index, the
    elements in front of the index at their indices and the elements from
    the index on one index higher. *)
Theorem insert_shifts_up h v e xs junk index value :
  vec_at h v e xs junk ->
  0 <= index <= Z.of_nat (length xs) ->
  junk <> [] \/
    (xs <> [] /\ can_alloc (Int.mul (Z.of_nat (length xs)) 2) = true) ->
  exists h',
    insert can_alloc v index value h = Ret tt h' /\
    sizeVector v h' = Ret (Z.of_nat (length xs) + 1) h' /\
    getVector v index h' = Ret value h' /\
    (forall (j : nat) y, xs !! j = Some y -> Z.of_nat j < index ->
       getVector v (Z.of_nat j) h' = Ret y h') /\
    (forall (j : nat) y, xs !! j = Some y -> index <= Z.of_nat j ->
       getVector v (Z.of_nat j + 1) h' = Ret y h').
Proof.
  intros Hvec Hin Hroom.
  destruct (insert_spec can_alloc can_alloc_sound h v e xs junk index value
              Hvec Hin Hroom) as (h' & e' & junk' & Hrun & Hvec' & _).
  set (i := Z.to_nat index) in *.
  assert (Hlt : length (take i xs) = i) by (rewrite length_take; lia).
  exists h'. split; [exact Hrun|]. split; [|split; [|split]].
  - erewrite sizeVector_spec by exact Hvec'.
    rewrite length_app. simpl. rewrite length_take, length_drop. f_equal. lia.
  - eapply getVector_spec; [exact Hvec'|lia|]. fold i.
    rewrite lookup_app_r by lia. rewrite Hlt, Nat.sub_diag. reflexivity.
  - intros j y Hy Hj. eapply getVector_spec; [exact Hvec'|lia|].
    rewrite Nat2Z.id, lookup_app_l by lia.
    rewrite lookup_take_lt by lia. exact Hy.
  - intros j y Hy Hj. eapply getVector_spec; [exact Hvec'|lia|].
    replace (Z.to_nat (Z.of_nat j + 1)) with (i + S (j - i))%nat by lia.
    rewrite lookup_app_r by lia. rewrite Hlt.
    replace (i + S (j - i) - i)%nat with (S (j - i)) by lia.
    simpl. rewrite lookup_drop.
    replace (i + (j - i))%nat with j by lia. exact Hy.
Qed.

(** X9: under the same conditions, [insert] followed by [removeVector] at
    the same index leaves a vector that shows the elements it had before,
    in the same order. *)
Theorem insert_remove_restores h v e xs junk index value :
  vec_at h v e xs junk ->
  0 <= index <= Z.of_nat (length xs) ->
  junk <> [] \/
    (xs <> [] /\ can_alloc (Int.mul (Z.of_nat (length xs)) 2) = true) ->
  exists h2,
    (insert can_alloc v index value;; removeVector v index) h = Ret tt h2 /\
    observed h2 v xs.
Proof.
  intros Hvec Hin Hroom.
  destruct (insert_then_remove can_alloc can_alloc_sound h v e xs junk index value
              Hvec Hin Hroom) as (h1 & h2 & e' & junk' & Hins & Hrem & Hvec2).
  exists h2. split.
  - rewrite (bind_Ret _ _ _ _ _ Hins). exact Hrem.
  - eapply vec_at_observed. exact Hvec2.
Qed.

End Shifts.

(** X8: [removeVector] at an index in range: afterwards the size is one
    less, [getVector] returns the elements in front of the index at their
    indices and the elements behind it one index lower; the vector keeps
    its buffer and its capacity. *)
Theorem remove_shifts_down h v e xs junk index :
  vec_at h v e xs junk ->
  0 <= index < Z.of_nat (length xs) ->
  exists h',
    removeVector v index h = Ret tt h' /\
    sizeVector v h' = Ret (Z.of_nat (length xs) - 1) h' /\
    (forall (j : nat) y, xs !! j = Some y -> Z.of_nat j < index ->
       getVector v (Z.of_nat j) h' = Ret y h') /\
    (forall (j : nat) y, xs !! j = Some y -> index < Z.of_nat j ->
       getVector v (Z.of_nat j - 1) h' = Ret y h') /\
    elements_of v h' = Ret e h' /\
    capacity_of v h' = Ret (Z.of_nat (length xs + length junk)) h'.
Proof.
  intros Hvec Hin.
  destruct (removeVector_spec h v e xs junk index Hvec Hin)
    as (h' & stale & Hrun & Hvec' & _).
  assert (Hdel : length (delete (Z.to_nat index) xs) = (length xs - 1)%nat).
  { rewrite length_delete by (apply lookup_lt_is_Some_2; lia). lia. }
  exists h'. split; [exact Hrun|]. split; [|split; [|split; [|split]]].
  - erewrite sizeVector_spec by exact Hvec'. rewrite Hdel. f_equal. lia.
  - intros j y Hy Hj. eapply getVector_spec; [exact Hvec'|lia|].
    rewrite Nat2Z.id, list_lookup_delete_lt by lia. exact Hy.
  - intros j y Hy Hj. eapply getVector_spec; [exact Hvec'|lia|].
    rewrite list_lookup_delete_ge by lia.
    replace (S (Z.to_nat (Z.of_nat j - 1))) with j by lia. exact Hy.
  - eapply elements_of_at. apply Hvec'.
  - erewrite capacity_of_at by apply Hvec'. rewrite Hdel. simpl. f_equal. lia.
Qed.

(** X10: [removeVector] at an index in range followed by [insert] of the
    removed element at the same index returns whatever the allocator would
    grant (the removal left a free slot) and gives back the vector: same
    elements, same buffer, same capacity. *)
Theorem remove_insert_restores can_alloc h v e xs junk index x :
  vec_at h v e xs junk ->
  0 <= index -> xs !! Z.to_nat index = Some x ->
  exists h2 junk',
    (removeVector v index;; insert can_alloc v index x) h = Ret tt h2 /\
    vec_at h2 v e xs junk' /\ length junk' = length junk.
Proof.
  intros Hvec H0 Hx. apply lookup_lt_Some in Hx as Hlt.
  destruct (removeVector_spec h v e xs junk index Hvec ltac:(lia))
    as (h1 & stale & Hrem & Hvec1 & _).
  assert (Hdel : length (delete (Z.to_nat index) xs) = (length xs - 1)%nat).
  { rewrite length_delete by eauto. lia. }
  destruct (insert_room can_alloc h1 v e _ stale junk index x Hvec1)
    as (h2 & Hins & Hvec2 & _); [lia|].
  exists h2, junk. split; [|split; [|reflexivity]].
  - rewrite (bind_Ret _ _ _ _ _ Hrem). exact Hins.
  - rewrite delete_take_drop in Hvec2.
    rewrite take_app_le, drop_app_length' in Hvec2
      by (rewrite ?length_take; lia).
    rewrite take_take, Nat.min_id, take_drop_middle in Hvec2 by exact Hx.
    exact Hvec2.
Qed.

(** ** Calls in sequence *)

Section Refinement.

Variable can_alloc : Z -> bool.
Hypothesis can_alloc_sound :
  forall n, can_alloc n = true -> 0 <= n <= Int.INT_MAX.

(** One call on a vector of capacity at least 1, against the list
    operation. *)
Lemma mutate_step_model h v e xs junk m :
  vec_at h v e xs junk -> (0 < length xs + length junk)%nat ->
  match mutate can_alloc v m h with
  | Ret _ h' =>
      exists e' xs' junk',
        model_step m xs = Some xs' /\ vec_at h' v e' xs' junk' /\
        (length xs + length junk <= length xs' + length junk')%nat
  | Fatal (Error _) h' => h' = h /\ model_step m xs = None
  | Fatal NoMemory h' => h' = h /\ model_step m xs <> None
  | Undefined => False
  end.
Proof.
  intros Hvec Hcap.
  destruct m as [index value|value|index value|index|]; unfold mutate, model_step.
  - destruct (decide (0 <= index < Z.of_nat (length xs))) as [Hin|Hout].
    + destruct (setVector_spec h v e xs junk index value Hvec Hin)
        as (h' & Hrun & Hvec' & _).
      rewrite Hrun. do 3 eexists. split; [reflexivity|]. split; [exact Hvec'|].
      rewrite length_insert. lia.
    + erewrite setVector_out_of_range; [|apply Hvec|lia]. auto.
  - destruct junk as [|y junk].
    + assert (Hne : xs <> []) by (destruct xs; simpl in *; [lia|done]).
      destruct (can_alloc (Int.mul (Z.of_nat (length xs)) 2)) eqn:Hg.
      * destruct (addVector_full can_alloc can_alloc_sound h v e xs value
                    Hvec Hne Hg) as (h' & Hrun & Hvec' & _).
        rewrite Hrun. do 3 eexists. split; [reflexivity|]. split; [exact Hvec'|].
        rewrite length_app, length_replicate. simpl. lia.
      * erewrite addVector_refused by eauto. split; [reflexivity|discriminate].
    + destruct (addVector_room can_alloc h v e xs y junk value Hvec)
        as (h' & Hrun & Hvec' & _).
      rewrite Hrun. do 3 eexists. split; [reflexivity|]. split; [exact Hvec'|].
      rewrite length_app. simpl. lia.
  - destruct (decide (0 <= index <= Z.of_nat (length xs))) as [Hin|Hout].
    + assert (Hlen : length (take (Z.to_nat index) xs
                               ++ value :: drop (Z.to_nat index) xs)
                     = S (length xs)).
      { rewrite length_app. simpl. rewrite length_take, length_drop. lia. }
      destruct junk as [|y junk].
      * assert (Hne : xs <> []) by (destruct xs; simpl in *; [lia|done]).
        destruct (can_alloc (Int.mul (Z.of_nat (length xs)) 2)) eqn:Hg.
        -- destruct (insert_full can_alloc can_alloc_sound h v e xs index value
                       Hvec Hne Hin Hg) as (h' & Hrun & Hvec' & _).
           rewrite Hrun. do 3 eexists. split; [reflexivity|].
           split; [exact Hvec'|]. rewrite Hlen, length_replicate. simpl. lia.
        -- erewrite insert_refused by eauto. split; [reflexivity|discriminate].
      * destruct (insert_room can_alloc h v e xs y junk index value Hvec Hin)
          as (h' & Hrun & Hvec' & _).
        rewrite Hrun. do 3 eexists. split; [reflexivity|].
        split; [exact Hvec'|]. rewrite Hlen. simpl. lia.
    + erewrite insert_out_of_range; [|apply Hvec|lia]. auto.
  - destruct (decide (0 <= index < Z.of_nat (length xs))) as [Hin|Hout].
    + destruct (removeVector_spec h v e xs junk index Hvec Hin)
        as (h' & stale & Hrun & Hvec' & _).
      rewrite Hrun. do 3 eexists. split; [reflexivity|]. split; [exact Hvec'|].
      rewrite length_delete by (apply lookup_lt_is_Some_2; lia). simpl. lia.
    + erewrite removeVector_out_of_range; [|apply Hvec|lia]. auto.
  - destruct (clearVector_spec h v e xs junk Hvec) as (h' & Hrun & Hvec' & _).
    rewrite Hrun. do 3 eexists. split; [reflexivity|]. split; [exact Hvec'|].
    rewrite length_app, length_fmap. simpl. lia.
Qed.

(** A sequence of calls on a vector of capacity at least 1, against the
    list operations. *)
Lemma mutate_all_model ms : forall h v e xs junk,
  vec_at h v e xs junk -> (0 < length xs + length junk)%nat ->
  match mutate_all can_alloc v ms h with
  | Ret _ h' =>
      exists e' xs' junk', model_all ms xs = Some xs' /\ vec_at h' v e' xs' junk'
  | Fatal (Error _) _ => model_all ms xs = None
  | Fatal NoMemory _ => True
  | Undefined => False
  end.
Proof.
  induction ms as [|m ms IH]; intros h v e xs junk Hvec Hcap.
  - simpl. eauto.
  - simpl mutate_all. unfold mbind, M_bind.
    pose proof (mutate_step_model h v e xs junk m Hvec Hcap) as Hstep.
    destruct (mutate can_alloc v m h) as [[] h1|[msg|] h1|].
    + destruct Hstep as (e' & xs' & junk' & Hm & Hvec' & Hcap').
      simpl model_all. rewrite Hm. apply (IH h1 v e' xs' junk' Hvec'). lia.
    + simpl model_all. destruct Hstep as [_ ->]. reflexivity.
    + exact I.
    + exact Hstep.
Qed.

(** X12: on a vector of capacity at least 1, no sequence of [setVector],
    [addVector], [insert], [removeVector] and [clearVector] calls, with
    whatever indices, reaches an access outside the buffer: every call
    returns or halts in the error reporter or the allocator. *)
Theorem positive_capacity_never_undefined h v e xs junk ms :
  vec_at h v e xs junk -> (0 < length xs + length junk)%nat ->
  mutate_all can_alloc v ms h <> Undefined.
Proof.
  intros Hvec Hcap Hundef.
  pose proof (mutate_all_model ms h v e xs junk Hvec Hcap) as Hm.
  rewrite Hundef in Hm. exact Hm.
Qed.

(** X13: on a vector of capacity at least 1, a sequence of mutating calls
    that returns leaves the vector showing the list that the corresponding
    list operations make of its elements; it halts in the error reporter
    only if one of these operations has its index out of range; and when
    all indices are in range it returns with that list or halts in the
    allocator. *)
Theorem mutate_all_refines_lists h v e xs junk ms :
  vec_at h v e xs junk -> (0 < length xs + length junk)%nat ->
  (forall h', mutate_all can_alloc v ms h = Ret tt h' ->
     exists xs', model_all ms xs = Some xs' /\ observed h' v xs') /\
  (forall msg h', mutate_all can_alloc v ms h = Fatal (Error msg) h' ->
     model_all ms xs = None) /\
  (forall xs', model_all ms xs = Some xs' ->
     (exists h', mutate_all can_alloc v ms h = Ret tt h' /\ observed h' v xs') \/
     (exists h', mutate_all can_alloc v ms h = Fatal NoMemory h')).
Proof.
  intros Hvec Hcap.
  pose proof (mutate_all_model ms h v e xs junk Hvec Hcap) as Hm.
  split; [|split].
  - intros h' Hrun. rewrite Hrun in Hm.
    destruct Hm as (e' & xs' & junk' & Hmodel & Hvec').
    exists xs'. split; [exact Hmodel|]. eapply vec_at_observed. exact Hvec'.
  - intros msg h' Hrun. rewrite Hrun in Hm. exact Hm.
  - intros xs' Hmodel.
    destruct (mutate_all can_alloc v ms h) as [[] h'|[msg|] h'|].
    + destruct Hm as (e' & xs2 & junk' & Hmodel2 & Hvec').
      left. exists h'. split; [reflexivity|].
      assert (xs2 = xs') as -> by congruence.
      eapply vec_at_observed. exact Hvec'.
    + congruence.
    + right. eauto.
    + destruct Hm.
Qed.

(** On a vector of capacity at least 1, every sequence of mutating calls
    ends in a heap, in which the vector is a vector of a capacity that is
    not smaller. *)
Lemma mutate_all_ends ms : forall h v e xs junk,
  vec_at h v e xs junk -> (0 < length xs + length junk)%nat ->
  exists h2 e2 xs2 junk2,
    final_heap (mutate_all can_alloc v ms h) = Some h2 /\
    vec_at h2 v e2 xs2 junk2 /\
    (length xs + length junk <= length xs2 + length junk2)%nat.
Proof.
  induction ms as [|m ms IH]; intros h v e xs junk Hvec Hcap.
  - exists h, e, xs, junk. simpl. auto.
  - simpl mutate_all. unfold mbind, M_bind.
    pose proof (mutate_step_model h v e xs junk m Hvec Hcap) as Hstep.
    destruct (mutate can_alloc v m h) as [[] h1|[msg|] h1|].
    + destruct Hstep as (e' & xs' & junk' & _ & Hvec' & Hcap').
      destruct (IH h1 v e' xs' junk' Hvec' ltac:(lia))
        as (h2 & e2 & xs2 & junk2 & Hfin & Hvec2 & Hcap2).
      exists h2, e2, xs2, junk2. split; [exact Hfin|]. split; [exact Hvec2|lia].
    + destruct Hstep as [-> _]. exists h, e, xs, junk. simpl. auto.
    + destruct Hstep as [-> _]. exists h, e, xs, junk. simpl. auto.
    + destruct Hstep.
Qed.

(** X11: on a vector of capacity at least 1, every sequence of mutating
    calls, whether it returns or halts in the error reporter or in the
    allocator, ends in a heap where the count of the vector is at most its
    capacity and the capacity is not smaller than it was: no call shrinks
    the buffer. *)
Theorem capacity_never_decreases h v e xs junk ms :
  vec_at h v e xs junk -> (0 < length xs + length junk)%nat ->
  exists h2 c2 k2,
    final_heap (mutate_all can_alloc v ms h) = Some h2 /\
    count_of v h2 = Ret c2 h2 /\ capacity_of v h2 = Ret k2 h2 /\
    0 <= c2 <= k2 /\ Z.of_nat (length xs + length junk) <= k2.
Proof.
  intros Hvec Hcap.
  destruct (mutate_all_ends ms h v e xs junk Hvec Hcap)
    as (h2 & e2 & xs2 & junk2 & Hfin & Hvec2 & Hcap2).
  exists h2, (Z.of_nat (length xs2)), (Z.of_nat (length xs2 + length junk2)).
  split; [exact Hfin|]. split; [eapply count_of_at; apply Hvec2|].
  split; [eapply capacity_of_at; apply Hvec2|]. lia.
Qed.

(** On a vector of capacity at least 1, every sequence of mutating calls
    ends in a heap where the blocks that are neither its record nor its
    buffer are as they were. *)
Lemma mutate_all_ends_frame ms h v e xs junk :
  vec_at h v e xs junk -> (0 < length xs + length junk)%nat ->
  exists h2,
    final_heap (mutate_all can_alloc v ms h) = Some h2 /\
    forall l b, l <> v -> l <> e -> h !! l = Some b -> h2 !! l = Some b.
Proof.
  intros Hvec Hcap.
  destruct (mutate_all_ends ms h v e xs junk Hvec Hcap) as (h2 & _ & _ & _ & Hfin & _).
  exists h2. split; [exact Hfin|].
  intros l b Hlv Hle Hl.
  eapply (mutate_all_frame can_alloc can_alloc_sound ms h v e); eauto.
Qed.

End Refinement.

(** The appends that fit into the free slots of a vector need no
    allocation. *)
Lemma add_all_room can_alloc zs : forall h v e ys junk,
  vec_at h v e ys junk -> (length zs <= length junk)%nat ->
  exists h',
    add_all can_alloc v zs h = Ret tt h' /\
    vec_at h' v e (ys ++ zs) (drop (length zs) junk).
Proof.
  induction zs as [|z zs IH]; intros h v e ys junk Hvec Hlen.
  - exists h. rewrite app_nil_r. simpl. rewrite drop_0. auto.
  - destruct junk as [|y junk]; [simpl in Hlen; lia|].
    destruct (addVector_room can_alloc h v e ys y junk z Hvec)
      as (h1 & Hrun & Hvec1 & _).
    destruct (IH h1 v e (ys ++ [z]) junk Hvec1) as (h' & Hrun' & Hvec');
      [simpl in Hlen; lia|].
    exists h'. simpl add_all. rewrite (bind_Ret _ _ _ _ _ Hrun).
    rewrite <- app_assoc in Hvec'. simpl in *. auto.
Qed.

(** X14: [newVector], the allocator granting its buffer, returns a new
    vector that is not [NULL], is empty and has capacity
    [INITIAL_CAPACITY]; up to [INITIAL_CAPACITY] appends to it then return
    whatever an allocator would grant, and leave the capacity as it is. *)
Theorem newVector_holds_initial_capacity can_alloc h :
  can_alloc INITIAL_CAPACITY = true ->
  exists v h1,
    newVector can_alloc h = Ret v h1 /\
    v <> NULL /\ h !! v = None /\
    isEmptyVector v h1 = Ret true h1 /\
    capacity_of v h1 = Ret INITIAL_CAPACITY h1 /\
    forall other_alloc (xs : list Z),
      Z.of_nat (length xs) <= INITIAL_CAPACITY ->
      exists h2,
        add_all other_alloc v xs h1 = Ret tt h2 /\
        observed h2 v xs /\
        capacity_of v h2 = Ret INITIAL_CAPACITY h2.
Proof.
  intros Hg.
  destruct (newVector_spec can_alloc h Hg) as (v & e & h1 & Hnew & Hv & _ & Hvec & _).
  exists v, h1. split; [exact Hnew|]. split; [apply Hvec|]. split; [exact Hv|].
  split; [|split].
  - erewrite isEmptyVector_spec by exact Hvec. reflexivity.
  - erewrite capacity_of_at by apply Hvec. reflexivity.
  - intros other_alloc xs Hlen.
    destruct (add_all_room other_alloc xs h1 v e [] _ Hvec) as (h2 & Hrun & Hvec2).
    { rewrite length_replicate. unfold INITIAL_CAPACITY in *. lia. }
    exists h2. split; [exact Hrun|]. split; [eapply vec_at_observed; exact Hvec2|].
    erewrite capacity_of_at by apply Hvec2.
    rewrite length_drop, length_replicate. simpl app.
    unfold INITIAL_CAPACITY in *. f_equal. lia.
Qed.

(** ** Creation undone by release *)

(** X15: [newVector] followed by [freeVector] of the new vector gives back
    the heap as it was: the two blocks [newVector] allocates are the two
    blocks [freeVector] releases. *)
Theorem new_then_free_restores can_alloc h :
  can_alloc INITIAL_CAPACITY = true ->
  (v ← newVector can_alloc; freeVector v) h = Ret tt h.
Proof.
  intros Hg. set (v := fresh_addr h).
  set (h1 := <[v := VectorCDT NULL 0 0]> h).
  set (e := fresh_addr h1).
  assert (Hev : e <> v).
  { eapply fresh_addr_ne. unfold h1. apply lookup_insert_eq. }
  assert (Hv : h !! v = None) by apply fresh_addr_None.
  assert (He : h !! e = None).
  { destruct (h !! e) as [b|] eqn:E; [|done].
    assert (h1 !! e = Some b) by (unfold h1; heap_lookup).
    unfold e in H. rewrite fresh_addr_None in H. done. }
  erewrite bind_Ret; cycle 1.
  { unfold newVector, newBlock.
    run_by ltac:(apply alloc_at). fold v h1.
    run_by ltac:(apply newArray_granted; exact Hg). fold e.
    run_by ltac:(eapply set_elements_at; heap_lookup; unfold h1; heap_lookup).
    run_by ltac:(eapply set_count_at; heap_lookup).
    run_by ltac:(eapply set_capacity_at; heap_lookup).
    reflexivity. }
  unfold freeVector.
  run_by ltac:(eapply elements_of_at; heap_look).
  run_by ltac:(eapply freeBlock_at; heap_look).
  erewrite freeBlock_at by heap_look.
  f_equal. apply map_eq. intros l.
  destruct (decide (l = v)) as [->|Hlv]; [heap_look; congruence|].
  destruct (decide (l = e)) as [->|Hle]; [heap_look; congruence|].
  unfold h1. heap_look.
Qed.

(** X16: [cloneVector] followed by [freeVector] of the clone gives back the
    heap as it was, the original vector included. *)
Theorem clone_then_free_restores can_alloc h v e xs junk :
  vec_at h v e xs junk ->
  can_alloc (Z.of_nat (length xs + length junk)) = true ->
  (v' ← cloneVector can_alloc v; freeVector v') h = Ret tt h.
Proof.
  intros Hvec Hg. pose proof (vec_at_distinct _ _ _ _ _ Hvec) as Hve.
  destruct Hvec as [Hnn Hv He Hfit].
  set (v' := fresh_addr h).
  set (h1 := <[v' := VectorCDT NULL 0 0]> h).
  assert (Hv'v : v' <> v) by (eapply fresh_addr_ne; exact Hv).
  assert (Hv'e : v' <> e) by (eapply fresh_addr_ne; exact He).
  set (h2 := <[v' := VectorCDT NULL (Z.of_nat (length xs))
                        (Z.of_nat (length xs + length junk))]> h).
  set (e' := fresh_addr h2).
  assert (He'v' : e' <> v') by (eapply fresh_addr_ne; unfold h2; apply lookup_insert_eq).
  assert (He'v : e' <> v) by (eapply fresh_addr_ne; unfold h2; heap_lookup).
  assert (He'e : e' <> e) by (eapply fresh_addr_ne; unfold h2; heap_lookup).
  assert (Hnv' : h !! v' = None) by apply fresh_addr_None.
  assert (Hne' : h !! e' = None).
  { destruct (h !! e') as [b|] eqn:E; [|done].
    assert (h2 !! e' = Some b) by (unfold h2; heap_lookup).
    unfold e' in H. rewrite fresh_addr_None in H. done. }
  erewrite bind_Ret; cycle 1.
  { unfold cloneVector, newBlock.
    run_by ltac:(apply alloc_at). fold v' h1.
    run_by ltac:(eapply count_of_at; unfold h1; heap_lookup).
    run_by ltac:(eapply set_count_at; unfold h1; heap_lookup).
    run_by ltac:(eapply capacity_of_at; unfold h1; heap_lookup).
    run_by ltac:(eapply set_capacity_at; unfold h1; heap_lookup).
    unfold h1. rewrite !insert_insert_eq. fold h2.
    run_by ltac:(apply newArray_granted; exact Hg). fold e'.
    run_by ltac:(eapply set_elements_at; unfold h2; heap_lookup).
    run_by ltac:(eapply elements_of_at; unfold h2; heap_lookup).
    run_by ltac:(eapply copy_loop with (xs := xs) (n := length xs);
                 [unfold h2; heap_lookup | heap_lookup | congruence | lia
                 | rewrite length_replicate; lia]).
    reflexivity. }
  unfold freeVector.
  run_by ltac:(eapply elements_of_at; heap_look).
  run_by ltac:(eapply freeBlock_at; heap_look).
  erewrite freeBlock_at by heap_look.
  f_equal. apply map_eq. intros l.
  destruct (decide (l = v')) as [->|Hlv]; [heap_look; congruence|].
  destruct (decide (l = e')) as [->|Hle]; [heap_look; congruence|].
  unfold h2. heap_look.
Qed.

(** ** Arrays and vectors are copies of each other *)

Section Copies.

Variable can_alloc : Z -> bool.
Hypothesis can_alloc_sound :
  forall n, can_alloc n = true -> 0 <= n <= Int.INT_MAX.

(** X17: [vectorToArray] leaves the vector as it is and returns a newly
    allocated array; on a vector of capacity at least 1, whatever mutating
    calls are made on the vector afterwards and however they end, the array
    holds the elements the vector had, and [NULL] behind them. *)
Theorem vectorToArray_is_a_copy h v e xs junk :
  vec_at h v e xs junk -> (0 < length xs + length junk)%nat ->
  can_alloc (Int.add (Z.of_nat (length xs)) 1) = true ->
  exists a h1,
    vectorToArray can_alloc v h = Ret a h1 /\
    h !! a = None /\
    vec_at h1 v e xs junk /\
    forall ms, exists h2,
      final_heap (mutate_all can_alloc v ms h1) = Some h2 /\
      h2 !! a = Some (ArrayBlock ((Some <$> xs) ++ [Some NULL])).
Proof.
  intros Hvec Hcap Hg. set (a := fresh_addr h).
  assert (Hav : a <> v) by (eapply fresh_addr_ne; apply Hvec).
  assert (Hae : a <> e) by (eapply fresh_addr_ne; apply Hvec).
  assert (Hvec1 : vec_at (<[a := ArrayBlock ((Some <$> xs) ++ [Some NULL])]> h)
                         v e xs junk).
  { eapply vec_at_transport; [exact Hvec|].
    intros l b [-> | ->] Hl; rewrite lookup_insert_ne by done; exact Hl. }
  exists a. eexists. split; [|split; [|split]].
  - eapply vectorToArray_spec; eauto.
  - apply fresh_addr_None.
  - exact Hvec1.
  - intros ms.
    destruct (mutate_all_ends_frame can_alloc can_alloc_sound ms _ v e xs junk
                Hvec1 Hcap) as (h2 & Hfin & Hframe).
    exists h2. split; [exact Hfin|].
    apply Hframe; [exact Hav|exact Hae|apply lookup_insert_eq].
Qed.

(** X18: [arrayToVector] with [n >= 1] copies the first [n] entries of the
    array into a new vector that is full (count = capacity = [n]);
    whatever mutating calls are made on the vector afterwards and however
    they end, the array is as it was. *)
Theorem arrayToVector_is_a_copy h array (items : list Z) rest :
  array <> NULL ->
  h !! array = Some (ArrayBlock ((Some <$> items) ++ rest)) ->
  (0 < length items)%nat ->
  can_alloc (Z.of_nat (length items)) = true ->
  exists v h1,
    arrayToVector can_alloc array (Z.of_nat (length items)) h = Ret v h1 /\
    v <> NULL /\ h !! v = None /\
    observed h1 v items /\
    capacity_of v h1 = Ret (Z.of_nat (length items)) h1 /\
    forall ms, exists h2,
      final_heap (mutate_all can_alloc v ms h1) = Some h2 /\
      h2 !! array = Some (ArrayBlock ((Some <$> items) ++ rest)).
Proof.
  intros Hnn Harr Hpos Hg.
  destruct (arrayToVector_spec can_alloc can_alloc_sound h array items rest
              Hnn Harr Hg) as (v & e & h1 & Hrun & Hv & He & Hvec & Hext).
  exists v, h1. split; [exact Hrun|]. split; [apply Hvec|]. split; [exact Hv|].
  split; [eapply vec_at_observed; exact Hvec|]. split.
  { erewrite capacity_of_at by apply Hvec. simpl. rewrite Nat.add_0_r. reflexivity. }
  intros ms.
  destruct (mutate_all_ends_frame can_alloc can_alloc_sound ms h1 v e items []
              Hvec ltac:(simpl; lia)) as (h2 & Hfin & Hframe).
  exists h2. split; [exact Hfin|].
  apply Hframe; [intros ->; congruence|intros ->; congruence|auto].
Qed.

(** One call on one of two vectors that share no block: the other one is
    as it was, and they still share no block. *)
Lemma pair_step h a b ea xsa ja eb xsb jb m h1 :
  vec_at h a ea xsa ja -> vec_at h b eb xsb jb ->
  a <> b -> a <> eb -> ea <> b -> ea <> eb ->
  mutate can_alloc a m h = Ret tt h1 ->
  exists ea1 xsa1 ja1,
    vec_at h1 a ea1 xsa1 ja1 /\ vec_at h1 b eb xsb jb /\
    ea1 <> b /\ ea1 <> eb /\
    (length xsa + length ja <= length xsa1 + length ja1)%nat.
Proof.
  intros Ha Hb H1 H2 H3 H4 Hrun.
  destruct (mutate_step can_alloc can_alloc_sound h a ea xsa ja m Ha)
    as [(h' & ea' & xsa' & ja' & Hrun1 & Ha' & Hpres & Hbuf & Hcap)
       |[[c Hrun1]|Hrun1]]; rewrite Hrun1 in Hrun; try discriminate.
  injection Hrun as <-.
  exists ea', xsa', ja'. split; [exact Ha'|]. split.
  { destruct Hb as [Hnn Hv He Hfit]. split; auto; apply Hpres; auto. }
  split; [|split; [|exact Hcap]].
  - destruct Hbuf as [->|Hnone]; [exact H3|].
    destruct Hb as [_ Hv _ _]. intros ->. congruence.
  - destruct Hbuf as [->|Hnone]; [exact H4|].
    destruct Hb as [_ _ He _]. intros ->. congruence.
Qed.

(** Calls on two vectors that share no block, in any interleaving that
    returns: they still are vectors that share no block, of capacities that
    are not smaller. *)
Lemma mutate_either_keeps steps : forall h a b ea xsa ja eb xsb jb h',
  vec_at h a ea xsa ja -> vec_at h b eb xsb jb ->
  a <> b -> a <> eb -> ea <> b -> ea <> eb ->
  mutate_either can_alloc a b steps h = Ret tt h' ->
  exists ea' xsa' ja' eb' xsb' jb',
    vec_at h' a ea' xsa' ja' /\ vec_at h' b eb' xsb' jb' /\
    a <> eb' /\ ea' <> b /\ ea' <> eb' /\
    (length xsa + length ja <= length xsa' + length ja')%nat /\
    (length xsb + length jb <= length xsb' + length jb')%nat.
Proof.
  induction steps as [|[on_second m] steps IH];
    intros h a b ea xsa ja eb xsb jb h' Ha Hb H1 H2 H3 H4 Hrun.
  - simpl in Hrun. injection Hrun as <-.
    exists ea, xsa, ja, eb, xsb, jb. auto 10.
  - simpl in Hrun. unfold mbind, M_bind in Hrun.
    destruct (mutate can_alloc (if on_second then b else a) m h)
      as [[] h1| |] eqn:Hstep; try discriminate.
    destruct on_second.
    + destruct (pair_step h b a eb xsb jb ea xsa ja m h1 Hb Ha)
        as (eb1 & xsb1 & jb1 & Hb1 & Ha1 & H5 & H6 & Hcap); auto.
      destruct (IH h1 a b ea xsa ja eb1 xsb1 jb1 h' Ha1 Hb1)
        as (ea' & xsa' & ja' & eb' & xsb' & jb' & Ha' & Hb' & H7 & H8 & H9 & Hc1 & Hc2);
        auto.
      exists ea', xsa', ja', eb', xsb', jb'.
      split; [exact Ha'|]. split; [exact Hb'|]. split; [exact H7|].
      split; [exact H8|]. split; [exact H9|]. split; lia.
    + destruct (pair_step h a b ea xsa ja eb xsb jb m h1 Ha Hb)
        as (ea1 & xsa1 & ja1 & Ha1 & Hb1 & H5 & H6 & Hcap); auto.
      destruct (IH h1 a b ea1 xsa1 ja1 eb xsb jb h' Ha1 Hb1)
        as (ea' & xsa' & ja' & eb' & xsb' & jb' & Ha' & Hb' & H7 & H8 & H9 & Hc1 & Hc2);
        auto.
      exists ea', xsa', ja', eb', xsb', jb'.
      split; [exact Ha'|]. split; [exact Hb'|]. split; [exact H7|].
      split; [exact H8|]. split; [exact H9|]. split; lia.
Qed.

(** X20: [cloneVector] on a vector of capacity at least 1, the allocator
    granting the buffer: the clone is a new record with a new buffer of the
    same capacity holding the same element references.  After any calls on
    the two vectors that returned, whatever sequence of mutating calls is
    made on one of them and however it ends, [sizeVector] and [getVector]
    show of the other one what they showed before that sequence. *)
Theorem clones_are_independent h v e xs junk :
  vec_at h v e xs junk -> (0 < length xs + length junk)%nat ->
  can_alloc (Z.of_nat (length xs + length junk)) = true ->
  exists v' e' h',
    cloneVector can_alloc v h = Ret v' h' /\
    h !! v' = None /\ h !! e' = None /\
    vec_at h' v' e' xs (replicate (length junk) None) /\
    vec_at h' v e xs junk /\
    forall steps h1,
      mutate_either can_alloc v v' steps h' = Ret tt h1 ->
      exists ys ys',
        observed h1 v ys /\ observed h1 v' ys' /\
        forall ms,
          (exists h2, final_heap (mutate_all can_alloc v' ms h1) = Some h2 /\
                      observed h2 v ys) /\
          (exists h2, final_heap (mutate_all can_alloc v ms h1) = Some h2 /\
                      observed h2 v' ys').
Proof.
  intros Hvec Hcap Hg.
  destruct (cloneVector_spec can_alloc h v e xs junk Hvec Hg)
    as (v' & e' & h' & Hrun & Hv' & He' & Hv'e' & Hvec' & Hext).
  assert (Hvech' : vec_at h' v e xs junk).
  { eapply vec_at_transport; [exact Hvec|]. intros l b _. apply Hext. }
  assert (Hv : is_Some (h !! v)) by (destruct Hvec; eauto).
  assert (He : is_Some (h !! e)) by (destruct Hvec; eauto).
  assert (v <> v' /\ v <> e' /\ e <> v' /\ e <> e') as (H1 & H2 & H3 & H4).
  { destruct Hv as [? Hv], He as [? He].
    repeat split; intros ->; congruence. }
  exists v', e', h'. do 5 (split; [assumption|]).
  intros steps h1 Hsteps.
  destruct (mutate_either_keeps steps h' v v' e xs junk e' xs
              (replicate (length junk) None) h1 Hvech' Hvec' H1 H2 H3 H4 Hsteps)
    as (e1 & ys & j1 & e1' & ys' & j1' & Ha & Hb & H5 & H6 & H7 & Hc1 & Hc2).
  rewrite length_replicate in Hc2.
  exists ys, ys'.
  split; [eapply vec_at_observed; exact Ha|].
  split; [eapply vec_at_observed; exact Hb|].
  intros ms. split.
  - destruct (mutate_all_ends_frame can_alloc can_alloc_sound ms h1 v' e1' ys' j1'
                Hb ltac:(lia)) as (h2 & Hfin & Hframe).
    exists h2. split; [exact Hfin|].
    eapply vec_at_observed, vec_at_transport; [exact Ha|].
    intros l b [-> | ->]; apply Hframe; auto.
  - destruct (mutate_all_ends_frame can_alloc can_alloc_sound ms h1 v e1 ys j1
                Ha ltac:(lia)) as (h2 & Hfin & Hframe).
    exists h2. split; [exact Hfin|].
    eapply vec_at_observed, vec_at_transport; [exact Hb|].
    intros l b [-> | ->]; apply Hframe; auto.
Qed.

(** X21: [newVectorIterator], the factory that every constructor of
    vector.c registers, passes the [count] elements of the vector to
    [addToIteratorList] in index order and leaves the vector as it is.  With
    the list iterator holding the references it is passed, on a vector of
    capacity at least 1: whatever mutating calls are made on the vector
    afterwards and however they end, the iterator holds, and yields when
    driven, the elements the vector had when the iterator was made. *)
Theorem newVectorIterator_snapshot h v e xs junk :
  vec_at h v e xs junk -> (0 < length xs + length junk)%nat ->
  exists it h1,
    newVectorIterator v h = Ret it h1 /\
    h !! it = None /\
    vec_at h1 v e xs junk /\
    forall ms, exists h2,
      final_heap (mutate_all can_alloc v ms h1) = Some h2 /\
      h2 !! it = Some (IteratorCDT xs) /\
      forall fuel, (length xs <= fuel)%nat ->
        exists h3,
          drive fuel it h2 = Ret xs h3 /\
          stepIterator it h3 = Ret None h3.
Proof.
  intros Hvec Hcap. set (it := fresh_addr h).
  assert (Hiv : it <> v) by (eapply fresh_addr_ne; apply Hvec).
  assert (Hie : it <> e) by (eapply fresh_addr_ne; apply Hvec).
  assert (Hvec1 : vec_at (<[it := IteratorCDT xs]> h) v e xs junk).
  { eapply vec_at_transport; [exact Hvec|].
    intros l b [-> | ->] Hl; rewrite lookup_insert_ne by done; exact Hl. }
  exists it, (<[it := IteratorCDT xs]> h).
  split; [eapply newVectorIterator_spec; exact Hvec|].
  split; [apply fresh_addr_None|]. split; [exact Hvec1|].
  intros ms.
  destruct (mutate_all_ends_frame can_alloc can_alloc_sound ms _ v e xs junk
              Hvec1 Hcap) as (h2 & Hfin & Hframe).
  assert (Hit : h2 !! it = Some (IteratorCDT xs)).
  { apply Hframe; [exact Hiv|exact Hie|apply lookup_insert_eq]. }
  exists h2. split; [exact Hfin|]. split; [exact Hit|].
  intros fuel Hfuel.
  eexists. split; [apply drive_spec; [exact Hit|exact Hfuel]|].
  unfold stepIterator. rewrite lookup_insert_eq. reflexivity.
Qed.

End Copies.

(** ** The further properties at concrete heaps *)

Lemma insert_shifts_up_witness :
  vec_at small_vector_heap 1 2 [7; 8] [None] /\
  0 <= 1 <= Z.of_nat (length [7; 8]) /\
  exists h',
    insert plenty 1 1 9 small_vector_heap = Ret tt h' /\
    sizeVector 1 h' = Ret (Z.of_nat (length [7; 8]) + 1) h' /\
    getVector 1 1 h' = Ret 9 h' /\
    (forall (j : nat) y, [7; 8] !! j = Some y -> Z.of_nat j < 1 ->
       getVector 1 (Z.of_nat j) h' = Ret y h') /\
    (forall (j : nat) y, [7; 8] !! j = Some y -> 1 <= Z.of_nat j ->
       getVector 1 (Z.of_nat j + 1) h' = Ret y h').
Proof.
  split; [exact small_vector_at|]. split; [simpl; lia|].
  apply (insert_shifts_up plenty plenty_sound small_vector_heap 1 2 [7; 8] [None] 1 9).
  - exact small_vector_at.
  - simpl. lia.
  - left. discriminate.
Defined.

Lemma remove_shifts_down_witness :
  vec_at small_vector_heap 1 2 [7; 8] [None] /\
  0 <= 0 < Z.of_nat (length [7; 8]) /\
  exists h',
    removeVector 1 0 small_vector_heap = Ret tt h' /\
    sizeVector 1 h' = Ret (Z.of_nat (length [7; 8]) - 1) h' /\
    (forall (j : nat) y, [7; 8] !! j = Some y -> Z.of_nat j < 0 ->
       getVector 1 (Z.of_nat j) h' = Ret y h') /\
    (forall (j : nat) y, [7; 8] !! j = Some y -> 0 < Z.of_nat j ->
       getVector 1 (Z.of_nat j - 1) h' = Ret y h') /\
    elements_of 1 h' = Ret 2 h' /\
    capacity_of 1 h' = Ret (Z.of_nat (length [7; 8] + length [@None Z])) h'.
Proof.
  split; [exact small_vector_at|]. split; [simpl; lia|].
  apply (remove_shifts_down small_vector_heap 1 2 [7; 8] [None] 0).
  - exact small_vector_at.
  - simpl. lia.
Defined.

Lemma insert_remove_restores_witness :
  vec_at full_vector_heap 1 2 [7; 8] [] /\
  0 <= 1 <= Z.of_nat (length [7; 8]) /\
  plenty (Int.mul (Z.of_nat (length [7; 8])) 2) = true /\
  exists h2,
    (insert plenty 1 1 9;; removeVector 1 1) full_vector_heap = Ret tt h2 /\
    observed h2 1 [7; 8].
Proof.
  split; [exact full_vector_at|]. split; [simpl; lia|]. split; [reflexivity|].
  apply (insert_remove_restores plenty plenty_sound full_vector_heap 1 2 [7; 8] [] 1 9).
  - exact full_vector_at.
  - simpl. lia.
  - right. split; [discriminate|reflexivity].
Defined.

Lemma remove_insert_restores_witness :
  vec_at full_vector_heap 1 2 [7; 8] [] /\
  [7; 8] !! Z.to_nat 0 = Some 7 /\
  exists h2 junk',
    (removeVector 1 0;; insert nothing 1 0 7) full_vector_heap = Ret tt h2 /\
    vec_at h2 1 2 [7; 8] junk' /\ length junk' = length (@nil (option Z)).
Proof.
  split; [exact full_vector_at|]. split; [reflexivity|].
  apply (remove_insert_restores nothing full_vector_heap 1 2 [7; 8] [] 0 7).
  - exact full_vector_at.
  - lia.
  - reflexivity.
Defined.

Lemma insert_at_size_is_append_witness :
  vec_at full_vector_heap 1 2 [7; 8] [] /\
  insert plenty 1 (Z.of_nat (length [7; 8])) 9 full_vector_heap
  = addVector plenty 1 9 full_vector_heap.
Proof.
  split; [exact full_vector_at|].
  apply (insert_at_size_is_append plenty plenty_sound full_vector_heap 1 2 [7; 8] [] 9).
  exact full_vector_at.
Defined.

Lemma capacity_never_decreases_witness :
  vec_at small_vector_heap 1 2 [7; 8] [None] /\
  (0 < length [7; 8] + length [@None Z])%nat /\
  exists h2 c2 k2,
    final_heap (mutate_all plenty 1 [MAppend 9; MAppend 10; MRemove 0; MClear]
                           small_vector_heap) = Some h2 /\
    count_of 1 h2 = Ret c2 h2 /\ capacity_of 1 h2 = Ret k2 h2 /\
    0 <= c2 <= k2 /\ Z.of_nat (length [7; 8] + length [@None Z]) <= k2.
Proof.
  split; [exact small_vector_at|]. split; [simpl; lia|].
  apply (capacity_never_decreases plenty plenty_sound small_vector_heap 1 2
           [7; 8] [None] [MAppend 9; MAppend 10; MRemove 0; MClear]).
  - exact small_vector_at.
  - simpl. lia.
Defined.

Lemma positive_capacity_never_undefined_witness :
  vec_at small_vector_heap 1 2 [7; 8] [None] /\
  (0 < length [7; 8] + length [@None Z])%nat /\
  mutate_all plenty 1 [MRemove 0; MRemove 0; MInsert 0 9; MSet 5 1]
             small_vector_heap <> Undefined.
Proof.
  split; [exact small_vector_at|]. split; [simpl; lia|].
  apply (positive_capacity_never_undefined plenty plenty_sound small_vector_heap
           1 2 [7; 8] [None]).
  - exact small_vector_at.
  - simpl. lia.
Defined.

Lemma mutate_all_refines_lists_witness :
  vec_at small_vector_heap 1 2 [7; 8] [None] /\
  (0 < length [7; 8] + length [@None Z])%nat /\
  (forall h', mutate_all plenty 1 [MAppend 9; MInsert 0 5; MRemove 1]
                small_vector_heap = Ret tt h' ->
     exists xs', model_all [MAppend 9; MInsert 0 5; MRemove 1] [7; 8] = Some xs' /\
                 observed h' 1 xs') /\
  (forall msg h', mutate_all plenty 1 [MAppend 9; MInsert 0 5; MRemove 1]
                    small_vector_heap = Fatal (Error msg) h' ->
     model_all [MAppend 9; MInsert 0 5; MRemove 1] [7; 8] = None) /\
  (forall xs', model_all [MAppend 9; MInsert 0 5; MRemove 1] [7; 8] = Some xs' ->
     (exists h', mutate_all plenty 1 [MAppend 9; MInsert 0 5; MRemove 1]
                   small_vector_heap = Ret tt h' /\ observed h' 1 xs') \/
     (exists h', mutate_all plenty 1 [MAppend 9; MInsert 0 5; MRemove 1]
                   small_vector_heap = Fatal NoMemory h')).
Proof.
  split; [exact small_vector_at|]. split; [simpl; lia|].
  apply (mutate_all_refines_lists plenty plenty_sound small_vector_heap 1 2
           [7; 8] [None] [MAppend 9; MInsert 0 5; MRemove 1]).
  - exact small_vector_at.
  - simpl. lia.
Defined.

Lemma newVector_holds_initial_capacity_witness :
  plenty INITIAL_CAPACITY = true /\
  exists v h1,
    newVector plenty ∅ = Ret v h1 /\
    v <> NULL /\ (∅ : gmap Z block) !! v = None /\
    isEmptyVector v h1 = Ret true h1 /\
    capacity_of v h1 = Ret INITIAL_CAPACITY h1 /\
    forall other_alloc (xs : list Z),
      Z.of_nat (length xs) <= INITIAL_CAPACITY ->
      exists h2,
        add_all other_alloc v xs h1 = Ret tt h2 /\
        observed h2 v xs /\
        capacity_of v h2 = Ret INITIAL_CAPACITY h2.
Proof.
  split; [reflexivity|].
  apply (newVector_holds_initial_capacity plenty ∅). reflexivity.
Defined.

Lemma new_then_free_restores_witness :
  plenty INITIAL_CAPACITY = true /\
  (v ← newVector plenty; freeVector v) small_vector_heap
  = Ret tt small_vector_heap.
Proof.
  split; [reflexivity|].
  apply (new_then_free_restores plenty small_vector_heap). reflexivity.
Defined.

Lemma clone_then_free_restores_witness :
  vec_at small_vector_heap 1 2 [7; 8] [None] /\
  plenty (Z.of_nat (length [7; 8] + length [@None Z])) = true /\
  (v' ← cloneVector plenty 1; freeVector v') small_vector_heap
  = Ret tt small_vector_heap.
Proof.
  split; [exact small_vector_at|]. split; [reflexivity|].
  apply (clone_then_free_restores plenty small_vector_heap 1 2 [7; 8] [None]).
  - exact small_vector_at.
  - reflexivity.
Defined.

Lemma vectorToArray_is_a_copy_witness :
  vec_at small_vector_heap 1 2 [7; 8] [None] /\
  (0 < length [7; 8] + length [@None Z])%nat /\
  plenty (Int.add (Z.of_nat (length [7; 8])) 1) = true /\
  exists a h1,
    vectorToArray plenty 1 small_vector_heap = Ret a h1 /\
    small_vector_heap !! a = None /\
    vec_at h1 1 2 [7; 8] [None] /\
    forall ms, exists h2,
      final_heap (mutate_all plenty 1 ms h1) = Some h2 /\
      h2 !! a = Some (ArrayBlock ((Some <$> [7; 8]) ++ [Some NULL])).
Proof.
  split; [exact small_vector_at|]. split; [simpl; lia|]. split; [reflexivity|].
  apply (vectorToArray_is_a_copy plenty plenty_sound small_vector_heap 1 2
           [7; 8] [None]).
  - exact small_vector_at.
  - simpl. lia.
  - reflexivity.
Defined.

Lemma arrayToVector_is_a_copy_witness :
  three_items_heap !! 100 = Some (ArrayBlock ((Some <$> [7; 8]) ++ [Some 9])) /\
  (0 < length [7; 8])%nat /\
  plenty (Z.of_nat (length [7; 8])) = true /\
  exists v h1,
    arrayToVector plenty 100 (Z.of_nat (length [7; 8])) three_items_heap
    = Ret v h1 /\
    v <> NULL /\ three_items_heap !! v = None /\
    observed h1 v [7; 8] /\
    capacity_of v h1 = Ret (Z.of_nat (length [7; 8])) h1 /\
    forall ms, exists h2,
      final_heap (mutate_all plenty v ms h1) = Some h2 /\
      h2 !! 100 = Some (ArrayBlock ((Some <$> [7; 8]) ++ [Some 9])).
Proof.
  split; [reflexivity|]. split; [simpl; lia|]. split; [reflexivity|].
  apply (arrayToVector_is_a_copy plenty plenty_sound three_items_heap 100
           [7; 8] [Some 9]).
  - discriminate.
  - reflexivity.
  - simpl. lia.
  - reflexivity.
Defined.

Lemma clones_are_independent_witness :
  vec_at small_vector_heap 1 2 [7; 8] [None] /\
  (0 < length [7; 8] + length [@None Z])%nat /\
  plenty (Z.of_nat (length [7; 8] + length [@None Z])) = true /\
  exists v' e' h',
    cloneVector plenty 1 small_vector_heap = Ret v' h' /\
    small_vector_heap !! v' = None /\ small_vector_heap !! e' = None /\
    vec_at h' v' e' [7; 8] (replicate (length [@None Z]) None) /\
    vec_at h' 1 2 [7; 8] [None] /\
    forall steps h1,
      mutate_either plenty 1 v' steps h' = Ret tt h1 ->
      exists ys ys',
        observed h1 1 ys /\ observed h1 v' ys' /\
        forall ms,
          (exists h2, final_heap (mutate_all plenty v' ms h1) = Some h2 /\
                      observed h2 1 ys) /\
          (exists h2, final_heap (mutate_all plenty 1 ms h1) = Some h2 /\
                      observed h2 v' ys').
Proof.
  split; [exact small_vector_at|]. split; [simpl; lia|]. split; [reflexivity|].
  apply (clones_are_independent plenty plenty_sound small_vector_heap 1 2 [7; 8] [None]).
  - exact small_vector_at.
  - simpl. lia.
  - reflexivity.
Defined.

Lemma newVectorIterator_snapshot_witness :
  vec_at small_vector_heap 1 2 [7; 8] [None] /\
  (0 < length [7; 8] + length [@None Z])%nat /\
  exists it h1,
    newVectorIterator 1 small_vector_heap = Ret it h1 /\
    small_vector_heap !! it = None /\
    vec_at h1 1 2 [7; 8] [None] /\
    forall ms, exists h2,
      final_heap (mutate_all plenty 1 ms h1) = Some h2 /\
      h2 !! it = Some (IteratorCDT [7; 8]) /\
      forall fuel, (length [7; 8] <= fuel)%nat ->
        exists h3,
          drive fuel it h2 = Ret [7; 8] h3 /\
          stepIterator it h3 = Ret None h3.
Proof.
  split; [exact small_vector_at|]. split; [simpl; lia|].
  apply (newVectorIterator_snapshot plenty plenty_sound small_vector_heap 1 2
           [7; 8] [None]).
  - exact small_vector_at.
  - simpl. lia.
Defined.
